(** * ProShot Converter: the job controller, the directive compiler and the
      preference aggregator

    A shallow embedding of [src/types.ts], [src/services/geminiService.ts]
    and of the state handlers of [src/App.tsx], followed by the properties
    of the specification that were checked against them.

    Conventions of the embedding.
    - A JavaScript [number] is a [Z]: every number the handlers see comes
      from a range slider ([Number(e.target.value)] with the default step),
      from a constant, or from [Date.now()].  [String(n)] is [pretty n].
    - A JavaScript string is a [string]; an optional field ([f?: T]) or a
      possibly [undefined] value is an [option].
    - React state is a record; a handler is a function on it.  The
      suspended activations of the asynchronous [processQueueItem] are kept
      in the state as tasks, with the phase they are waiting in. *)

From Stdlib Require Import ZArith String Ascii List Lia.
From stdpp Require Import base option list strings pretty gmap.

Local Open Scope string_scope.
Local Open Scope list_scope.
Local Open Scope Z_scope.

(** ** [src/types.ts] *)

Inductive ShadowIntensity := soft | hard | long.

Inductive MaterialType :=
  standard | metal | texture | stone | patina | silver | ammonia.

Inductive AspectRatio := ar_1_1 | ar_16_9 | ar_4_3 | ar_9_16 | ar_3_4.

Inductive PatinaVariation := pv_subtle | pv_standard | pv_extreme.

Inductive Status := queued | generating | completed | failed.

#[global] Instance ShadowIntensity_eq_dec : EqDecision ShadowIntensity.
Proof. solve_decision. Defined.
#[global] Instance MaterialType_eq_dec : EqDecision MaterialType.
Proof. solve_decision. Defined.
#[global] Instance AspectRatio_eq_dec : EqDecision AspectRatio.
Proof. solve_decision. Defined.
#[global] Instance PatinaVariation_eq_dec : EqDecision PatinaVariation.
Proof. solve_decision. Defined.
#[global] Instance Status_eq_dec : EqDecision Status.
Proof. solve_decision. Defined.

(** The string a value of each union type is at run time. *)
Definition ShadowIntensity_str (i : ShadowIntensity) : string :=
  match i with soft => "soft" | hard => "hard" | long => "long" end.

Definition MaterialType_str (m : MaterialType) : string :=
  match m with
  | standard => "standard" | metal => "metal" | texture => "texture"
  | stone => "stone" | patina => "patina" | silver => "silver"
  | ammonia => "ammonia"
  end.

Module HistoryItem.
Record t := mk {
  id : string;
  originalImage : string;
  generatedImage : string;
  timestamp : Z;
  status : Status;
  base64Data : option string;
  mimeType : option string;
  originalFilename : option string;
  materialType : option MaterialType;
  textureIntensity : option Z;
  patinaIntensity : option Z;
  patinaVariation : option PatinaVariation;
  shadowAngle : option Z;
  shadowIntensity : option ShadowIntensity;
  backgroundDistance : option Z;
  aspectRatio : option AspectRatio;
  enhancedLighting : option bool;
  rating : option Z
}.
End HistoryItem.

Record GeneratedImageResult := {
  imageData : string;
  res_mimeType : string
}.

(** ** JavaScript values *)

Definition dq : string := String (ascii_of_nat 34) EmptyString.

(** Truthiness of a string and of a number ([0] is falsy). *)
Definition truthy_str (s : string) : bool := bool_decide (s ≠ EmptyString).

Definition truthy_num (n : Z) : bool := bool_decide (n ≠ 0).

(** [o || d] on a possibly undefined number, string or union value. *)
Definition or_num (o : option Z) (d : Z) : Z :=
  match o with
  | Some n => if truthy_num n then n else d
  | None => d
  end.

Definition or_else {A} (o : option A) (d : A) : A := default d o.

(** [s.includes(sub)] *)
Fixpoint includes (sub s : string) : bool :=
  if String.prefix sub s then true
  else match s with
       | EmptyString => false
       | String _ s' => includes sub s'
       end.

(** [s.startsWith(p)] *)
Definition startsWith (p s : string) : bool := String.prefix p s.

(** [s.split(',')]: the pieces between the separators, at least one. *)
Fixpoint split_on (sep : ascii) (s : string) : list string :=
  match s with
  | EmptyString => [EmptyString]
  | String c s' =>
      if Ascii.eqb c sep then EmptyString :: split_on sep s'
      else match split_on sep s' with
           | p :: ps => String c p :: ps
           | [] => [String c EmptyString]
           end
  end.

(** The dot of a regular expression matches any character but a line
    terminator (of the four, the line feed and the carriage return are
    characters of this string type). *)
Definition is_line_terminator (c : ascii) : bool :=
  Ascii.eqb c (ascii_of_nat 10) || Ascii.eqb c (ascii_of_nat 13).

(** The text up to the first [;] of [s], when no line terminator comes
    before it: what [(.*?);] captures at the start of [s]. *)
Fixpoint lazy_until_semicolon (s : string) : option string :=
  match s with
  | EmptyString => None
  | String c s' =>
      if Ascii.eqb c ";" then Some EmptyString
      else if is_line_terminator c then None
      else String c <$> lazy_until_semicolon s'
  end.

(** [meta.match(/:(.*?);/)], giving the first capture group of the leftmost
    match. *)
Fixpoint match_mime (meta : string) : option string :=
  match meta with
  | EmptyString => None
  | String c s' =>
      if Ascii.eqb c ":" then
        match lazy_until_semicolon s' with
        | Some m => Some m
        | None => match_mime s'
        end
      else match_mime s'
  end.

(** [s.toUpperCase()] on the two words it is applied to. *)
Definition toUpperCase_ascii (c : ascii) : ascii :=
  let n := nat_of_ascii c in
  if (97 <=? n)%nat && (n <=? 122)%nat then ascii_of_nat (n - 32) else c.

Fixpoint toUpperCase (s : string) : string :=
  match s with
  | EmptyString => EmptyString
  | String c s' => String (toUpperCase_ascii c) (toUpperCase s')
  end.

(** ** [src/services/geminiService.ts]: the directive compiler *)

Module geminiService.

(** A parameter with a default value takes it when the argument is
    [undefined]. *)
Definition getShadowInstructions (angle_ : option Z)
    (intensity_ : option ShadowIntensity) (distance_ : option Z)
    (enhancedLighting_ : option bool) : string :=
  let angle := default 135 angle_ in
  let intensity := default soft intensity_ in
  let distance := default 0 distance_ in
  let enhancedLighting := default false enhancedLighting_ in
  (* the remainder of JavaScript takes the sign of the dividend *)
  let lightSourceAngle := Z.rem (angle + 180) 360 in
  let distanceEffect :=
    if 0 <? distance
    then " Due to elevation, the shadow edges must soften significantly as they move away from the object (Inverse Square Law)."
    else EmptyString in
  let shadowPhysics :=
    if enhancedLighting then
      match intensity with
      | soft => "**PHYSICS: LARGE SOFTBOX (DIFFUSED)**. 
        1. **Light Wrap**: The light source is physically large. It MUST wrap around the object's form. **CRITICAL**: Simulate a subtle light wrap effect where the PURE WHITE BACKGROUND reflects light back onto the object's lower edges.
        2. **Gradient**: The cast shadow must have a smooth, feathered gradient from the core to the edge. NO hard outlines.
        3. **Bounce**: The white floor bounces light back up, filling in the deepest shadows on the object itself (High Radiosity)." +:+ distanceEffect
      | hard => "**PHYSICS: FRESNEL SPOT (DIRECT)**. 
        1. **Definition**: High-contrast, well-defined shadow shape.
        2. **Penumbra Accuracy**: Create a physically accurate **PENUMBRA**. The shadow must be razor-sharp at the contact point (if grounded) but blur progressively (Hardness gradient) as it moves away from the object. The transition from Umbra (dark core) to Penumbra (soft edge) must be distinct." +:+ distanceEffect
      | long => "**PHYSICS: LOW ANGLE (DRAMATIC)**. 
        1. **Elongation**: Shadow length > 2x Object height. 
        2. **Falloff**: Shadow density decreases linearly with distance from the object." +:+ distanceEffect
      end
    else
      match intensity with
      | soft => "Diffused, soft, and feathered." +:+ distanceEffect
      | hard => "Sharp, crisp, and high-contrast." +:+ distanceEffect
      | long => "Elongated and dramatic." +:+ distanceEffect
      end in
  let spatialInstruction :=
    if distance <=? 5 then
      "**STATUS: GROUNDED**. The object is physically touching the white surface. **CRITICAL:** Generate deep, dark **Ambient Occlusion (Contact Shadows)** exactly where the object meets the floor to ground it."
    else
      let heightDesc := if distance <? 30 then "Hovering" else "Floating" in
      "**STATUS: " +:+ toUpperCase heightDesc +:+ "** (Distance: " +:+ pretty distance +:+ "%). The cast shadow is **DETACHED** from the object. The vertical offset distance indicates the height." in
  let lightingEngine :=
    if enhancedLighting then "
      - **ADVANCED LIGHT TRANSPORT**: 
        1. **White Bounce**: The pure white background (#FFFFFF) acts as a reflector. Project subtle cool-white fill light into the object's shadow areas.
        2. **Specular Physics**: Highlights must follow the curvature of the object (Fresnel effect).
      "
    else "- **STANDARD LIGHTING**: Simple ambient fill." in
  "
   [LIGHTING & SHADOW SIMULATION]
   - MAIN LIGHT SOURCE ANGLE: " +:+ pretty lightSourceAngle +:+ "°
   - CAST SHADOW ANGLE: " +:+ pretty angle +:+ "°
   - SHADOW PROFILE: " +:+ shadowPhysics +:+ "
   - SPATIAL RELATION: " +:+ spatialInstruction +:+ "
   " +:+ lightingEngine +:+ "
  ".

(** The three-way split of an intensity into a depth word, used by the
    metal and the silver pipelines. *)
Definition depth_of (patinaIntensity : Z) (low mid high : string) : string :=
  if patinaIntensity <? 30 then low
  else if patinaIntensity <? 70 then mid else high.

Definition getMaterialInstructions (type_ : option MaterialType)
    (textureIntensity_ patinaIntensity_ : option Z)
    (patinaVariation_ : option PatinaVariation) : string :=
  let type := default standard type_ in
  let textureIntensity := default 50 textureIntensity_ in
  let patinaIntensity := default 0 patinaIntensity_ in
  let patinaVariation := default pv_standard patinaVariation_ in
  match type with
  | ammonia =>
      let ammoniaVar :=
        match patinaVariation with
        | pv_subtle => "**LIGHT FUMING**: Delicate, wispy rainbow interference colors (Pink/Blue/Gold) on raw metal."
        | pv_standard => "**CLASSIC SALT & FUME**: Deep Cobalt Blue and Turquoise crystallization mixed with Magenta/Purple transitions. Natural bloom pattern."
        | pv_extreme => "**HEAVY SATURATION**: Intense, psychedelic color shifting. Neon Blues, Vibrant Purples, and sharp salt crusts covering most of the surface."
        end in
      "
      **[MATERIAL PIPELINE: AMMONIA VAPOR PATINA]**
      - **Target Surfaces**: Copper, Brass, Bronze exposed to Ammonia/Salt fuming.
      - **Intensity**: " +:+ pretty patinaIntensity +:+ "% Coverage.
      - **Physics Simulation**:
         1. **Fuming Process**: Render the patina as a result of chemical vapor interaction. It should appear organic, blooming, and crystalline.
         2. **Color Palette**: Focus on **IRIDESCENT RAINBOW** spectrum: Deep Blues, Teals, Magentas, Purples, and Golds.
         3. **Texture**: Mix of smooth iridescent stains (thin film interference) and rough, matte salt crystals (thick accumulation).
      - **Variation Mode**: " +:+ ammoniaVar +:+ "
      - **Interaction**: High specular iridescence in thin areas, matte/diffuse in heavy blue/crystalline areas.
      "
  | patina =>
      let variationDesc :=
        match patinaVariation with
        | pv_subtle => "**UNIFORM OXIDATION**: A consistent layer of dull green/brown oxide. Very little raw metal showing."
        | pv_standard => "**REALISTIC WEATHERING**: A complex mix of Turquoise Verdigris, Malachite Green, and Dark Bronze. The oxidation should accumulate physically in crevices."
        | pv_extreme => "**ANCIENT ARTIFACT**: Heavy incrustation. Vibrant Azurite Blues and deep Emerald Greens. High-contrast transitions. Patina appears thick and crusty."
        end in
      "
      **[MATERIAL PIPELINE: AGED PATINA & OXIDATION]**
      - **Target Surfaces**: Ancient Bronze, Weathered Copper, Aged Brass.
      - **Intensity**: " +:+ pretty patinaIntensity +:+ "% Coverage.
      - **Texture Engine**:
         1. **Layering**: Render the patina as a PHYSICAL layer sitting ON TOP of the metal, not just a color change. It must look chalky, matte, and dry.
         2. **Color Palette**: Focus on **Blue/Green/Teal** spectrum (Verdigris/Malachite) for copper alloys.
         3. **Iridescence**: **CRITICAL**. At the transition zones where the patina thins out to reveal raw metal, render **oil-slick iridescence** (Subtle purple/gold heat stains).
      - **Variation Mode**: " +:+ variationDesc +:+ "
      - **Roughness**: High roughness (Matte) for oxidized areas, Low roughness (Shiny) for exposed metal ridges.
      "
  | metal =>
      let patinaDesc :=
        if 0 <? patinaIntensity then
          let depth := depth_of patinaIntensity "SURFACE DUSTING" "HEAVY OXIDATION" "ANCIENT CRUST" in
          let varInstruction :=
            match patinaVariation with
            | pv_subtle => "Monochrome oxidation (Uniform Green or Brown). Low color noise."
            | pv_standard => "Natural variation. Mix of Turquoise, Malachite Green, and Deep Bronze."
            | pv_extreme => "**CHAOTIC IRIDESCENCE**. High-frequency color shifting. Deep Blues, Vibrant Greens, and Oil-slick Purples mixed with raw metal."
            end in
          "
          - **PATINA ENGINE (" +:+ depth +:+ " - " +:+ pretty patinaIntensity +:+ "%)**:
             1. **Coverage**: Apply " +:+ pretty patinaIntensity +:+ "% coverage of oxidation effects, primarily in crevices and textured areas.
             2. **Palette**: " +:+ varInstruction +:+ "
             3. **Micro-Texture**: The patina must appear physically raised/layered on top of the metal. It should have a matte, chalky finish contrasting with the shiny raw metal.
             4. **Iridescence**: If copper/bronze, specifically simulate heat-treatment interference colors (rainbow effect) at the transition zones between raw metal and oxidation.
          "
        else "- **PATINA**: None. Show pristine, factory-new metal." in
      "
      **[MATERIAL PIPELINE: ADVANCED METALLURGY]**
      - **Target Surfaces**: Copper, Brass, Bronze, Gold, Anodized Aluminum.
      - **Surface Finishes**: 
         1. **Brushed**: Render distinct, directional micro-scratches (anisotropic).
         2. **Polished**: Render high-contrast mirror-like reflections with high Index of Refraction (IOR).
         3. **Anodized**: Render a matte metallic sheen with deep color saturation and uniform diffusion.
      " +:+ patinaDesc +:+ "
      - **Interaction**: The surface must appear cold. Specular highlights should be sharp (low roughness) for polished areas and spread out/diffused for oxidized areas.
      "
  | silver =>
      let tarnishDesc :=
        if 0 <? patinaIntensity then
          let tarnishDepth := depth_of patinaIntensity "LIGHT TARNISH" "VINTAGE AGING" "ANTIQUE BLACKENING" in
          let tarnishVar :=
            match patinaVariation with
            | pv_subtle => "Champagne/Yellowish tinting on highlights. Soft Grey in shadows."
            | pv_standard => "**CLASSIC ANTIQUE**. Deep Grey/Black accumulation in crevices (Ag2S). Bright Silver on raised areas. High Contrast."
            | pv_extreme => "**HEAVY SULFURIZATION**. Matte Black crust covering 80% of surface. Raw silver only visible on sharpest edges."
            end in
          "
          - **TARNISH ENGINE (" +:+ tarnishDepth +:+ " - " +:+ pretty patinaIntensity +:+ "%)**:
             1. **Coverage**: Apply " +:+ pretty patinaIntensity +:+ "% coverage of Silver Sulfide tarnish.
             2. **Palette**: Neutral Greys, Blacks, and subtle Yellow/Blue interference colors. **NO GREEN/VERDIGRIS**.
             3. **Physics**: Tarnish accumulates deeply in recesses (Intaglio). Raised surfaces must remain bright due to 'handling/polishing'.
             4. **Variation**: " +:+ tarnishVar +:+ "
          "
        else "- **PURITY**: 99.9% Fine Silver / Sterling. Ultra-bright, white-hot specular highlights." in
      "
      **[MATERIAL PIPELINE: PRECIOUS SILVER]**
      - **Target Surfaces**: Sterling Silver (925), Fine Silver (999), Platinum, White Gold, Chrome.
      - **Tone**: **NEUTRAL COOL WHITE**. Strictly remove any yellow/gold/copper casts unless specified by tarnish settings.
      - **Reflectivity**: MAXIMUM. Silver has the highest reflectivity of all metals.
      - **Surface Finishes**: 
         1. **High Polish**: Mirror finish. Reflections must be white.
         2. **Satin/Matte**: Frosted silver texture, soft white diffusion.
      " +:+ tarnishDesc +:+ "
      - **Interaction**: Crisp, white specular highlights. Deep, neutral dark reflections.
      "
  | stone => "
      **[MATERIAL PIPELINE: GEMSTONE & MINERALS]**
      - **Target Surfaces**: Quartz, Sandstone, Marble, Agate, Labradorite, Azurite, Granite.
      - **Texture Enhancement**:
         1. **Crystalline (Quartz/Amethyst)**: Emphasize **Subsurface Scattering (SSS)**. The edges should appear semi-translucent. Enhance internal fractures and facets.
         2. **Sedimentary (Sandstone)**: Maximize **Granular Detail**. The surface should look rough, porous, and matte with high micro-shadowing.
         3. **Metamorphic (Marble/Agate)**: Sharpen the **Veining**. Ensure the polish looks glassy (high gloss) while the veins have depth.
         4. **Iridescent (Labradorite/Opal)**: **CRITICAL**: Enhance the **Labradorescence/Play-of-Color**. Boost the visibility of the internal blue/gold/green flashes.
      - **Interaction**: Distinct separation between matte raw stone and polished faces.
      "
  | texture =>
      let intensityDesc :=
        if textureIntensity <? 30 then "SUBTLE: Smooth finish, fine grain, delicate weave."
        else if textureIntensity <? 70 then "NATURAL: Visible tactile details, standard roughness."
        else "INTENSE: Deep displacement, rough surface, pronounced grain/weave, high micro-contrast." in
      "
      **[MATERIAL PIPELINE: HIGH-FIDELITY ORGANIC & TEXTURE]**
      - **Intensity Level**: " +:+ pretty textureIntensity +:+ "/100 (" +:+ intensityDesc +:+ ")
      - **Target Surfaces**: Wood, Fabric, Leather, Glass.
      - **Wood**: enhance grain contrast and pore detail according to intensity.
      - **Fabric/Leather**: render visible weave/stitch patterns and micro-fiber texture.
      - **Glass/Transparent**: Maximize transmission and refraction. Render internal caustics if applicable. Clear, sharp edges.
      - **Interaction**: The surface must invite " +:+ dq +:+ "touch" +:+ dq +:+ ". Focus on micro-displacement mapping effects matching the requested intensity.
      "
  | standard => "
      **[MATERIAL PIPELINE: STANDARD PRODUCT]**
      - Accurately identify materials (Plastic, Ceramic, Electronics, Packaging).
      - Apply Physically Based Rendering (PBR) standards: correct roughness, metallicity, and diffuse values.
      - If plastic: Add subtle Subsurface Scattering (SSS) on thin edges.
      "
  end.

Definition getSystemPrompt (materialType : MaterialType)
    (shadowAngle : option Z) (shadowIntensity : option ShadowIntensity)
    (backgroundDistance : option Z) (enhancedLighting : option bool)
    (textureIntensity_ patinaIntensity_ : option Z)
    (patinaVariation_ : option PatinaVariation)
    (memoryContext_ : option string) : string :=
  let memoryContext := default EmptyString memoryContext_ in
  "
### SYSTEM ROLE
You are a specialized AI Imaging Engine (Nano Banana 2 / Gemini 3 Pro) for Commercial Product Photography.
Your goal: **TRANSFIGURE** raw input photos into **Production-Ready Advertisement Assets**.

### MANDATORY PRE-PROCESSING (CLEANUP)
**CRITICAL:** Before generating the new image, you must strictly perform:
1. **DELETE** all original cast shadows from the source image.
2. **ERASE** any black outlines, strokes, or " +:+ dq +:+ "cutout artifacts" +:+ dq +:+ " surrounding the object.
3. The object must be perfectly isolated before being placed into the new lighting environment.

### OUTPUT PARAMETERS
1. **Camera**: Hasselblad X2D 100C + 90mm Macro Lens.
2. **Settings**: f/8 Aperture (Deep depth of field, razor sharp), ISO 50, 1/200s.
3. **Background**: PURE WHITE (#FFFFFF) Studio Cyclorama. Zero texture.
4. **Viewpoint**: Top-Down (Flat Lay).

### ADAPTIVE LEARNING (USER MEMORY)
" +:+ (if truthy_str memoryContext then memoryContext
       else "No previous learning data available. Use standard best practices.") +:+ "

### LIGHTING SIMULATION
" +:+ getShadowInstructions shadowAngle shadowIntensity backgroundDistance enhancedLighting +:+ "

### MATERIAL & TEXTURE ENHANCEMENT
" +:+ getMaterialInstructions (Some materialType) textureIntensity_ patinaIntensity_ patinaVariation_ +:+ "

### EXECUTION PROTOCOL
1. **Clean**: Remove artifacts, outlines, and old shadows.
2. **Relight**: Apply the calculated directional lighting and shadow casting.
3. **Enhance**: Apply the specific material pipeline (Metal/Stone/Texture/Standard/Ammonia) with requested intensity.
4. **Refine**: Sharpen textures, boost contrast, and ensure color accuracy.

### NEGATIVE CONSTRAINTS
- NO original background bleeding.
- NO cartoonish black outlines.
- NO modifying the product's actual shape or logo text.
- NO artifacts in the white background.
".

(** The argument of [ai.models.generateContent]: the request payload. *)
Record Request := {
  model : string;
  text : string;
  inlineData_data : string;
  inlineData_mimeType : string;
  imageSize : string;
  req_aspectRatio : AspectRatio
}.

(** The payload [generateProPhoto] builds from its arguments, defaults
    included; the call itself is the external collaborator. *)
Definition generateProPhoto_request (base64Image mimeType : string)
    (materialType_ : option MaterialType) (shadowAngle_ : option Z)
    (shadowIntensity_ : option ShadowIntensity)
    (backgroundDistance_ : option Z) (aspectRatio_ : option AspectRatio)
    (enhancedLighting_ : option bool)
    (textureIntensity_ patinaIntensity_ : option Z)
    (patinaVariation_ : option PatinaVariation)
    (memoryContext_ : option string) : Request :=
  let materialType := default standard materialType_ in
  let shadowAngle := default 135 shadowAngle_ in
  let shadowIntensity := default soft shadowIntensity_ in
  let backgroundDistance := default 0 backgroundDistance_ in
  let aspectRatio := default ar_1_1 aspectRatio_ in
  let enhancedLighting := default false enhancedLighting_ in
  let textureIntensity := default 50 textureIntensity_ in
  let patinaIntensity := default 0 patinaIntensity_ in
  let patinaVariation := default pv_standard patinaVariation_ in
  let memoryContext := default EmptyString memoryContext_ in
  {| model := "gemini-3-pro-image-preview";
     text := getSystemPrompt materialType (Some shadowAngle)
               (Some shadowIntensity) (Some backgroundDistance)
               (Some enhancedLighting) (Some textureIntensity)
               (Some patinaIntensity) (Some patinaVariation)
               (Some memoryContext);
     inlineData_data := base64Image;
     inlineData_mimeType := mimeType;
     imageSize := "2K";
     req_aspectRatio := aspectRatio |}.

End geminiService.

(** ** [src/App.tsx]: the job record store and the queue controller *)

(** A record of the persisted rating log, as [handleRate] writes it. *)
Module RatingRecord.
Record t := mk {
  id : string;
  rating : Z;
  timestamp : Z;
  materialType : option MaterialType;
  shadowIntensity : option ShadowIntensity;
  shadowAngle : option Z;
  backgroundDistance : option Z;
  enhancedLighting : option bool;
  textureIntensity : option Z;
  patinaIntensity : option Z;
  patinaVariation : option PatinaVariation;
  aspectRatio : option AspectRatio
}.
End RatingRecord.

(** What [catch (err: any)] receives: the two properties the handler reads. *)
Record JsError := {
  message : option string;
  err_status : option Z
}.

(** A file of the file input collaborator.  [file_dataUri] is what
    [FileReader.readAsDataURL] delivers ([None] when the read fails), and
    [file_rnd] is [Math.random().toString(36).substr(2, 9)] at the moment
    the job is created. *)
Record File := {
  file_type : string;
  file_size : Z;
  file_name : string;
  file_dataUri : option string;
  file_rnd : string
}.

Module App.

Definition MAX_QUEUE_SIZE : Z := 30.

(** The studio settings, each a [useState] cell of the component. *)
Record Settings := {
  materialType : MaterialType;
  textureIntensity : Z;
  patinaIntensity : Z;
  isPatinaEnabled : bool;
  patinaVariation : PatinaVariation;
  shadowAngle : Z;
  shadowIntensity : ShadowIntensity;
  backgroundDistance : Z;
  aspectRatio : AspectRatio;
  enhancedLighting : bool
}.

(** Where a suspended activation of [processQueueItem] waits. *)
Inductive Phase :=
  | Throttle (wake : Z)                       (* await delay(1000) *)
  | Calling (req : geminiService.Request)     (* await generateProPhoto(...) *)
  | Cooldown (wake : Z).                      (* await delay(10000) *)

(** An activation: the [item] it was called with and its phase. *)
Record Task := {
  task_item : HistoryItem.t;
  task_phase : Phase
}.

(** The state: the cells of the component that the handlers read or write
    ([isCheckingKey], [isDragging], the two rating counters, the presets and
    the settings lock only feed the markup), the rating log in
    [localStorage], the suspended activations and the clock in ms. *)
Record State := {
  hasKey : bool;
  history : list HistoryItem.t;
  processingId : option string;
  error : option string;
  isQueueRunning : bool;
  settings : Settings;
  storedRatings : option (list RatingRecord.t);
  tasks : list Task;
  now : Z
}.

Definition set_hasKey (b : bool) (s : State) : State :=
  {| hasKey := b; history := history s; processingId := processingId s;
     error := error s; isQueueRunning := isQueueRunning s;
     settings := settings s; storedRatings := storedRatings s;
     tasks := tasks s; now := now s |}.

Definition setHistory (f : list HistoryItem.t → list HistoryItem.t)
    (s : State) : State :=
  {| hasKey := hasKey s; history := f (history s);
     processingId := processingId s; error := error s;
     isQueueRunning := isQueueRunning s; settings := settings s;
     storedRatings := storedRatings s; tasks := tasks s; now := now s |}.

Definition setProcessingId (p : option string) (s : State) : State :=
  {| hasKey := hasKey s; history := history s; processingId := p;
     error := error s; isQueueRunning := isQueueRunning s;
     settings := settings s; storedRatings := storedRatings s;
     tasks := tasks s; now := now s |}.

Definition setError (e : option string) (s : State) : State :=
  {| hasKey := hasKey s; history := history s; processingId := processingId s;
     error := e; isQueueRunning := isQueueRunning s;
     settings := settings s; storedRatings := storedRatings s;
     tasks := tasks s; now := now s |}.

Definition setIsQueueRunning (b : bool) (s : State) : State :=
  {| hasKey := hasKey s; history := history s; processingId := processingId s;
     error := error s; isQueueRunning := b;
     settings := settings s; storedRatings := storedRatings s;
     tasks := tasks s; now := now s |}.

Definition setSettings (g : Settings) (s : State) : State :=
  {| hasKey := hasKey s; history := history s; processingId := processingId s;
     error := error s; isQueueRunning := isQueueRunning s;
     settings := g; storedRatings := storedRatings s;
     tasks := tasks s; now := now s |}.

Definition setStoredRatings (r : option (list RatingRecord.t))
    (s : State) : State :=
  {| hasKey := hasKey s; history := history s; processingId := processingId s;
     error := error s; isQueueRunning := isQueueRunning s;
     settings := settings s; storedRatings := r;
     tasks := tasks s; now := now s |}.

Definition setTasks (f : list Task → list Task) (s : State) : State :=
  {| hasKey := hasKey s; history := history s; processingId := processingId s;
     error := error s; isQueueRunning := isQueueRunning s;
     settings := settings s; storedRatings := storedRatings s;
     tasks := f (tasks s); now := now s |}.

Definition advance (d : Z) (s : State) : State :=
  {| hasKey := hasKey s; history := history s; processingId := processingId s;
     error := error s; isQueueRunning := isQueueRunning s;
     settings := settings s; storedRatings := storedRatings s;
     tasks := tasks s; now := now s + d |}.

(** *** Updates of one job: the object spreads of the handlers *)

(** [{ ...i, status: 'generating' }] *)
Definition with_generating (i : HistoryItem.t) : HistoryItem.t :=
  HistoryItem.mk (HistoryItem.id i) (HistoryItem.originalImage i) (HistoryItem.generatedImage i) (HistoryItem.timestamp i) generating
     (HistoryItem.base64Data i) (HistoryItem.mimeType i) (HistoryItem.originalFilename i)
     (HistoryItem.materialType i) (HistoryItem.textureIntensity i)
     (HistoryItem.patinaIntensity i) (HistoryItem.patinaVariation i)
     (HistoryItem.shadowAngle i) (HistoryItem.shadowIntensity i)
     (HistoryItem.backgroundDistance i) (HistoryItem.aspectRatio i)
     (HistoryItem.enhancedLighting i) (HistoryItem.rating i).

(** [{ ...i, generatedImage: generatedUri, status: 'completed',
       base64Data: undefined }] *)
Definition with_completed (generatedUri : string) (i : HistoryItem.t)
    : HistoryItem.t :=
  HistoryItem.mk (HistoryItem.id i) (HistoryItem.originalImage i) generatedUri (HistoryItem.timestamp i) completed
     None (HistoryItem.mimeType i) (HistoryItem.originalFilename i)
     (HistoryItem.materialType i) (HistoryItem.textureIntensity i)
     (HistoryItem.patinaIntensity i) (HistoryItem.patinaVariation i)
     (HistoryItem.shadowAngle i) (HistoryItem.shadowIntensity i)
     (HistoryItem.backgroundDistance i) (HistoryItem.aspectRatio i)
     (HistoryItem.enhancedLighting i) (HistoryItem.rating i).

(** [{ ...i, status: 'failed', base64Data: undefined }] *)
Definition with_failed (i : HistoryItem.t) : HistoryItem.t :=
  HistoryItem.mk (HistoryItem.id i) (HistoryItem.originalImage i) (HistoryItem.generatedImage i) (HistoryItem.timestamp i) failed
     None (HistoryItem.mimeType i) (HistoryItem.originalFilename i)
     (HistoryItem.materialType i) (HistoryItem.textureIntensity i)
     (HistoryItem.patinaIntensity i) (HistoryItem.patinaVariation i)
     (HistoryItem.shadowAngle i) (HistoryItem.shadowIntensity i)
     (HistoryItem.backgroundDistance i) (HistoryItem.aspectRatio i)
     (HistoryItem.enhancedLighting i) (HistoryItem.rating i).

(** [{ ...item, rating }] *)
Definition with_rating (r : Z) (i : HistoryItem.t) : HistoryItem.t :=
  HistoryItem.mk (HistoryItem.id i) (HistoryItem.originalImage i) (HistoryItem.generatedImage i) (HistoryItem.timestamp i) (HistoryItem.status i)
     (HistoryItem.base64Data i) (HistoryItem.mimeType i) (HistoryItem.originalFilename i)
     (HistoryItem.materialType i) (HistoryItem.textureIntensity i)
     (HistoryItem.patinaIntensity i) (HistoryItem.patinaVariation i)
     (HistoryItem.shadowAngle i) (HistoryItem.shadowIntensity i)
     (HistoryItem.backgroundDistance i) (HistoryItem.aspectRatio i)
     (HistoryItem.enhancedLighting i) (Some r).

(** [prev.map(i => i.id === id ? f(i) : i)] *)
Definition mapById (target : string) (f : HistoryItem.t → HistoryItem.t)
    (prev : list HistoryItem.t) : list HistoryItem.t :=
  (λ i, if decide (HistoryItem.id i = target) then f i else i) <$> prev.

(** The patina intensity a job is stamped with:
    [isPatinaEnabled ? patinaIntensity : 0]. *)
Definition stampedPatina (g : Settings) : Z :=
  if isPatinaEnabled g then patinaIntensity g else 0.

(** *** [processUploadedFiles] *)

Definition isValidFile (file : File) : bool :=
  startsWith "image/" (file_type file)
  && negb (10 * 1024 * 1024 <? file_size file).

Definition isActive (i : HistoryItem.t) : bool :=
  bool_decide (HistoryItem.status i = queued)
  || bool_decide (HistoryItem.status i = generating).

Definition activeCount (h : list HistoryItem.t) : Z :=
  Z.of_nat (length (List.filter isActive h)).

(** The job made of one file, or nothing when reading it fails (the error
    is caught and logged). *)
Definition newItem (g : Settings) (clock : Z) (file : File)
    : option HistoryItem.t :=
  displayUri ← file_dataUri file;
  Some (HistoryItem.mk (pretty clock +:+ file_rnd file)
           displayUri
           EmptyString
           clock
           queued
           (split_on "," displayUri !! 1%nat)
           (Some (file_type file))
           (Some (file_name file))
           (Some (materialType g))
           (Some (textureIntensity g))
           (Some (stampedPatina g))
           (Some (patinaVariation g))
           (Some (shadowAngle g))
           (Some (shadowIntensity g))
           (Some (backgroundDistance g))
           (Some (aspectRatio g))
           (Some (enhancedLighting g))
           None).

Definition queueLimitMessage (currentActiveCount : Z) : string :=
  "Queue limit reached (" +:+ pretty MAX_QUEUE_SIZE
  +:+ "). You can only add " +:+ pretty (MAX_QUEUE_SIZE - currentActiveCount)
  +:+ " more images.".

(** The files are listed in the order in which their reads complete, the
    order in which the jobs are pushed.  The handler is one step of the
    component: up to the capacity check nothing is awaited, and the reads
    that follow are taken to complete before the next event. *)
Definition processUploadedFiles (fileList : list File) (s : State) : State :=
  let s := setError None s in
  let validFiles := List.filter isValidFile fileList in
  if bool_decide (length validFiles = 0%nat) then
    setError (Some "No valid images selected (Max 10MB, JPG/PNG/WEBP).") s
  else
    let currentActiveCount := activeCount (history s) in
    if MAX_QUEUE_SIZE <? currentActiveCount + Z.of_nat (length validFiles) then
      setError (Some (queueLimitMessage currentActiveCount)) s
    else
      let newItems : list HistoryItem.t :=
        omap (newItem (settings s) (now s)) validFiles in
      setHistory (λ prev, newItems ++ prev) s.

(** *** [handleRegenerate] *)

Definition regenerated (g : Settings) (clock : Z) (item : HistoryItem.t)
    : HistoryItem.t :=
  let parts := split_on "," (HistoryItem.originalImage item) in
  let meta := default EmptyString (parts !! 0%nat) in
  let base64Data := parts !! 1%nat in
  let mimeType := default "image/png" (match_mime meta) in
  HistoryItem.mk (HistoryItem.id item) (HistoryItem.originalImage item)
     EmptyString
     clock
     queued
     base64Data
     (Some mimeType)
     (HistoryItem.originalFilename item)
     (Some (materialType g))
     (Some (textureIntensity g))
     (Some (stampedPatina g))
     (Some (patinaVariation g))
     (Some (shadowAngle g))
     (Some (shadowIntensity g))
     (Some (backgroundDistance g))
     (Some (aspectRatio g))
     (Some (enhancedLighting g))
     (HistoryItem.rating item).

Definition handleRegenerate (target : string) (s : State) : State :=
  setHistory (mapById target (regenerated (settings s) (now s))) s.

(** *** [handleRate] *)

Definition ratingRecordOf (item : HistoryItem.t) (r : Z) (clock : Z)
    : RatingRecord.t :=
  RatingRecord.mk (HistoryItem.id item) r clock
    (HistoryItem.materialType item) (HistoryItem.shadowIntensity item)
    (HistoryItem.shadowAngle item) (HistoryItem.backgroundDistance item)
    (HistoryItem.enhancedLighting item) (HistoryItem.textureIntensity item)
    (HistoryItem.patinaIntensity item) (HistoryItem.patinaVariation item)
    (HistoryItem.aspectRatio item).

(** "Update existing rating or add new one": [findIndex] by id, then an
    assignment at that index or a [push]. *)
Definition upsertRating (ratingRecord : RatingRecord.t)
    (ratingsArray : list RatingRecord.t) : list RatingRecord.t :=
  match list_find (λ r, RatingRecord.id r = RatingRecord.id ratingRecord)
                  ratingsArray with
  | Some (existingIndex, _) => <[existingIndex := ratingRecord]> ratingsArray
  | None => ratingsArray ++ [ratingRecord]
  end.

Definition handleRate (target : string) (r : Z) (s : State) : State :=
  let s1 := setHistory (mapById target (with_rating r)) s in
  match list_find (λ i, HistoryItem.id i = target) (history s) with
  | None => s1
  | Some (_, item) =>
      let ratingRecord := ratingRecordOf item r (now s) in
      (* stored ? JSON.parse(stored) : [] *)
      let ratingsArray := default [] (storedRatings s) in
      setStoredRatings (Some (upsertRating ratingRecord ratingsArray)) s1
  end.

(** *** [handleClearHistory], [handleSelectKey], the queue buttons *)

Definition handleClearHistory (s : State) : State :=
  setIsQueueRunning false (setHistory (λ _, []) s).

Definition handleSelectKey (s : State) : State := set_hasKey true s.

(** *** [getAiMemoryContext]: the preference aggregator *)

(** One turn of the loop of [getMode]: the counts (an object keyed by
    [String(item)]), the largest count so far and the value that reached
    it. *)
Definition getMode_step {A} (String_ : A → string)
    (st : gmap string nat * nat * A) (item : A) : gmap string nat * nat * A :=
  let '(counts, maxCount, mode) := st in
  let val := String_ item in
  let c := (default 0 (counts !! val) + 1)%nat in
  let counts := <[val := c]> counts in
  if (maxCount <? c)%nat then (counts, c, item) else (counts, maxCount, mode).

(** [None] is the [null] returned for an empty array. *)
Definition getMode {A} (String_ : A → string) (arr : list A) : option A :=
  match arr with
  | [] => None
  | first :: _ => Some (foldl (getMode_step String_) (∅, 0%nat, first) arr).2
  end.

(** [String(v)] of a possibly undefined value, and of a possibly null one. *)
Definition String_undef {A} (f : A → string) (o : option A) : string :=
  match o with Some a => f a | None => "undefined" end.

Definition String_null {A} (f : A → string) (o : option A) : string :=
  match o with Some a => f a | None => "null" end.

(** [Math.round(a / 45) * 45] on an integer [a]: rounding to the nearest,
    halves upwards, is the floor of [(2 a + 45) / 90]. *)
Definition angleBucket (a : Z) : Z := (2 * a + 45) `div` 90 * 45.

Definition isPositiveExample (r : RatingRecord.t) : bool :=
  4 <=? RatingRecord.rating r.

(** The values [getAiMemoryContext] reduces the high-rated records to,
    before it prints them. *)
Record PreferenceProfile := {
  sampleCount : nat;
  preferredShadow : option (option ShadowIntensity);
  preferredMaterial : option (option MaterialType);
  preferredAngle : option Z;
  likesEnhanced : bool;
  prefersFloating : bool
}.

Definition isEnhanced (r : RatingRecord.t) : bool :=
  default false (RatingRecord.enhancedLighting r).

Definition isFloating (r : RatingRecord.t) : bool :=
  10 <? or_num (RatingRecord.backgroundDistance r) 0.

(** [k > n / 2] on two lengths. *)
Definition moreThanHalf (k n : nat) : bool := (n <? 2 * k)%nat.

Definition computeProfile (ratings : list RatingRecord.t)
    : option PreferenceProfile :=
  let positiveExamples := List.filter isPositiveExample ratings in
  if bool_decide (length positiveExamples = 0%nat) then None
  else Some {|
    sampleCount := length positiveExamples;
    preferredShadow :=
      getMode (String_undef ShadowIntensity_str)
              (RatingRecord.shadowIntensity <$> positiveExamples);
    preferredMaterial :=
      getMode (String_undef MaterialType_str)
              (RatingRecord.materialType <$> positiveExamples);
    preferredAngle :=
      getMode pretty
              ((λ r, angleBucket (or_num (RatingRecord.shadowAngle r) 135))
                 <$> positiveExamples);
    likesEnhanced :=
      moreThanHalf (length (List.filter isEnhanced positiveExamples))
                   (length positiveExamples);
    prefersFloating :=
      moreThanHalf (length (List.filter isFloating positiveExamples))
                   (length positiveExamples)
  |}.

Definition renderProfile (p : PreferenceProfile) : string :=
  "
    ### USER PREFERENCE PROFILE [Based on " +:+ pretty (sampleCount p) +:+ " High-Rated Samples]
    - **Lighting Style**: Strong preference for '" +:+ String_null (String_undef ShadowIntensity_str) (preferredShadow p) +:+ "' shadow hardness.
    - **Material Bias**: Frequently rates '" +:+ String_null (String_undef MaterialType_str) (preferredMaterial p) +:+ "' renders highly.
    - **Lighting Setup**: " +:+ (if likesEnhanced p then "Prefers complex, radiosity-rich lighting (Enhanced Mode)." else "Prefers standard, simpler lighting.") +:+ "
    - **Spatial Relation**: " +:+ (if prefersFloating p then "Often prefers floating/levitating product compositions." else "Prefers grounded, realistic placement.") +:+ "
    - **Angle Tendency**: Historically prefers lighting from approx " +:+ String_null pretty (preferredAngle p) +:+ "째.
    
    **INSTRUCTION**: Use these preferences to guide micro-decisions in contrast, micro-contrast, and texture emphasis where the prompt is ambiguous. If the current specific prompt conflicts with memory, prioritize the CURRENT prompt, but apply the user's preferred aesthetic " +:+ dq +:+ "flavor" +:+ dq +:+ " (e.g. contrast curve, saturation level).
    ".

Definition getAiMemoryContext (stored : option (list RatingRecord.t))
    : string :=
  match stored with
  | None => EmptyString
  | Some ratings =>
      match computeProfile ratings with
      | None => EmptyString
      | Some p => renderProfile p
      end
  end.

(** *** [processQueueItem] *)

Definition isRateLimit (err : JsError) : bool :=
  match message err with
  | Some m => includes "429" m || includes "quota" m
  | None => false
  end
  || bool_decide (err_status err = Some 429).

(** [err.message && err.message.includes("Requested entity was not found")] *)
Definition isAuthError (err : JsError) : bool :=
  match message err with
  | Some m => truthy_str m && includes "Requested entity was not found" m
  | None => false
  end.

Definition sessionExpiredMessage : string :=
  "API Key session expired. Please select your key again.".

(** The [catch] block up to its [await]: the state it leaves, and whether
    it then waits [delay(10000)] before the [finally] block runs. *)
Definition catchBlock (item : HistoryItem.t) (err : JsError) (s : State)
    : State * bool :=
  let s := setHistory (mapById (HistoryItem.id item) with_failed) s in
  if isAuthError err then
    (setIsQueueRunning false
       (setError (Some sessionExpiredMessage) (set_hasKey false s)), false)
  else if isRateLimit err then (s, true)
  else (s, false).

Definition finallyBlock (s : State) : State := setProcessingId None s.

Definition hasImageData (item : HistoryItem.t) : bool :=
  match HistoryItem.base64Data item, HistoryItem.mimeType item with
  | Some d, Some m => truthy_str d && truthy_str m
  | _, _ => false
  end.

Definition missingImageData : JsError :=
  {| message := Some "Missing image data for processing";
     err_status := None |}.

(** The arguments of the call of [generateProPhoto], with the [||]
    defaults of the call site. *)
Definition requestOf (item : HistoryItem.t) (memoryContext : string)
    : geminiService.Request :=
  geminiService.generateProPhoto_request
    (default EmptyString (HistoryItem.base64Data item))
    (default EmptyString (HistoryItem.mimeType item))
    (Some (or_else (HistoryItem.materialType item) standard))
    (HistoryItem.shadowAngle item)
    (HistoryItem.shadowIntensity item)
    (HistoryItem.backgroundDistance item)
    (Some (or_else (HistoryItem.aspectRatio item) ar_1_1))
    (HistoryItem.enhancedLighting item)
    (Some (or_num (HistoryItem.textureIntensity item) 50))
    (Some (or_num (HistoryItem.patinaIntensity item) 0))
    (Some (or_else (HistoryItem.patinaVariation item) pv_standard))
    (Some memoryContext).

(** The activation up to its first [await]: the lock is taken and the job
    marked; without image data the error is thrown, caught and the lock
    released in the same turn. *)
Definition processQueueItem (item : HistoryItem.t) (s : State) : State :=
  let s := setProcessingId (Some (HistoryItem.id item)) s in
  let s := setHistory (mapById (HistoryItem.id item) with_generating) s in
  if hasImageData item then
    setTasks (λ ts, ts ++ [{| task_item := item;
                              task_phase := Throttle (now s + 1000) |}]) s
  else
    let '(s, cooldown) := catchBlock item missingImageData s in
    if cooldown then
      setTasks (λ ts, ts ++ [{| task_item := item;
                                task_phase := Cooldown (now s + 10000) |}]) s
    else finallyBlock s.

(** After [delay(1000)]: the memory context is read and the external call
    is made. *)
Definition throttleDone (k : nat) (s : State) : option State :=
  match tasks s !! k with
  | Some {| task_item := item; task_phase := Throttle wake |} =>
      if wake <=? now s then
        let memoryContext := getAiMemoryContext (storedRatings s) in
        Some (setTasks
                (<[k := {| task_item := item;
                           task_phase := Calling (requestOf item memoryContext) |}]>)
                s)
      else None
  | _ => None
  end.

(** The external call settles: with a result, or with an error. *)
Definition callSettled (k : nat) (outcome : GeneratedImageResult + JsError)
    (s : State) : option State :=
  match tasks s !! k with
  | Some {| task_item := item; task_phase := Calling _ |} =>
      match outcome with
      | inl result =>
          let generatedUri :=
            "data:" +:+ res_mimeType result +:+ ";base64," +:+ imageData result in
          let s := setHistory (mapById (HistoryItem.id item)
                                       (with_completed generatedUri)) s in
          Some (finallyBlock (setTasks (delete k) s))
      | inr err =>
          let '(s, cooldown) := catchBlock item err s in
          if cooldown then
            Some (setTasks
                    (<[k := {| task_item := item;
                               task_phase := Cooldown (now s + 10000) |}]>) s)
          else Some (finallyBlock (setTasks (delete k) s))
      end
  | _ => None
  end.

(** After [delay(10000)]: the [finally] block. *)
Definition cooldownDone (k : nat) (s : State) : option State :=
  match tasks s !! k with
  | Some {| task_item := item; task_phase := Cooldown wake |} =>
      if wake <=? now s then Some (finallyBlock (setTasks (delete k) s))
      else None
  | _ => None
  end.

(** *** The queue effect *)

(** [if (processingId) return;] *)
Definition truthy_id (p : option string) : bool :=
  match p with Some i => truthy_str i | None => false end.

Definition nextItem (h : list HistoryItem.t) : option HistoryItem.t :=
  snd <$> list_find (λ item, HistoryItem.status item = queued) h.

Definition queueEffect (s : State) : State :=
  if negb (isQueueRunning s) then s
  else if truthy_id (processingId s) then s
  else match nextItem (history s) with
       | Some item => processQueueItem item s
       | None => setIsQueueRunning false s
       end.

(** *** The component as a transition system *)

(** What can happen to the component: the passing of time, the user's
    actions, the queue effect, and the wake-ups of a suspended activation
    (given by its position among the tasks). *)
Inductive Event :=
  | EvTick (d : Z)
  | EvUpload (fileList : list File)
  | EvRegenerate (target : string)
  | EvRate (target : string) (r : Z)
  | EvStart
  | EvPause
  | EvClear
  | EvSettings (g : Settings)
  | EvSelectKey
  | EvCheckKey (selected : bool)
  | EvQueueEffect
  | EvThrottleDone (k : nat)
  | EvCallSettled (k : nat) (outcome : GeneratedImageResult + JsError)
  | EvCooldownDone (k : nat).

Definition ids (h : list HistoryItem.t) : list string := HistoryItem.id <$> h.

(** The ids of a batch are new: [Date.now()] followed by nine random
    characters collides neither inside the batch nor with a job of the
    store. *)
Definition freshIds (fileList : list File) (s : State) : Prop :=
  NoDup (ids (omap (newItem (settings s) (now s))
                   (List.filter isValidFile fileList)) ++ ids (history s)).

#[global] Instance freshIds_dec fileList s : Decision (freshIds fileList s).
Proof. unfold freshIds. apply _. Defined.

(** The handlers.  [None]: the event cannot happen in that state (a timer
    that has not run out, a call that is not pending, time running
    backwards, an id drawn twice). *)
Definition handle (ev : Event) (s : State) : option State :=
  match ev with
  | EvTick d => if 0 <=? d then Some (advance d s) else None
  | EvUpload fileList =>
      if decide (freshIds fileList s)
      then Some (processUploadedFiles fileList s) else None
  | EvRegenerate target => Some (handleRegenerate target s)
  | EvRate target r => Some (handleRate target r s)
  | EvStart => Some (setIsQueueRunning true s)
  | EvPause => Some (setIsQueueRunning false s)
  | EvClear => Some (handleClearHistory s)
  | EvSettings g => Some (setSettings g s)
  | EvSelectKey => Some (handleSelectKey s)
  | EvCheckKey selected => Some (set_hasKey selected s)
  | EvQueueEffect => Some (queueEffect s)
  | EvThrottleDone k => throttleDone k s
  | EvCallSettled k outcome => callSettled k outcome s
  | EvCooldownDone k => cooldownDone k s
  end.

Fixpoint run (evs : list Event) (s : State) : option State :=
  match evs with
  | [] => Some s
  | ev :: evs' => s' ← handle ev s; run evs' s'
  end.

Definition defaultSettings : Settings :=
  {| materialType := standard; textureIntensity := 50; patinaIntensity := 0;
     isPatinaEnabled := false; patinaVariation := pv_standard;
     shadowAngle := 135; shadowIntensity := soft; backgroundDistance := 0;
     aspectRatio := ar_1_1; enhancedLighting := true |}.

(** The component when it mounts, at time [clock], over what
    [localStorage] holds. *)
Definition init (stored : option (list RatingRecord.t)) (clock : Z) : State :=
  {| hasKey := false; history := []; processingId := None; error := None;
     isQueueRunning := false; settings := defaultSettings;
     storedRatings := stored; tasks := []; now := clock |}.

Definition reachable (s : State) : Prop :=
  ∃ stored clock evs, run evs (init stored clock) = Some s.

End App.

Import App.

(** * More of the source *)

(** ** [src/services/geminiService.ts]: the light source and the response *)

(** [(angle + 180) % 360], the first line of [getShadowInstructions]. *)
Definition lightSourceAngle (angle : Z) : Z := Z.rem (angle + 180) 360.

(** A part of the first candidate of the response: a text part has no
    [inlineData]. *)
Record InlineData := {
  inline_data : option string;
  inline_mimeType : option string
}.

Record Part := {
  part_inlineData : option InlineData
}.

(** [o || d] on a possibly undefined string. *)
Definition or_str (o : option string) (d : string) : string :=
  match o with
  | Some x => if truthy_str x then x else d
  | None => d
  end.

(** [new Error(msg)] *)
Definition newError (msg : string) : JsError :=
  {| message := Some msg; err_status := None |}.

(** The loop over the parts: the first part with [inlineData] and a truthy
    [inlineData.data] is returned. *)
Fixpoint firstImage (parts : list Part) : option GeneratedImageResult :=
  match parts with
  | [] => None
  | part :: rest =>
      match part_inlineData part with
      | Some d =>
          match inline_data d with
          | Some x =>
              if truthy_str x then
                Some {| imageData := x;
                        res_mimeType := or_str (inline_mimeType d) "image/png" |}
              else firstImage rest
          | None => firstImage rest
          end
      | None => firstImage rest
      end
  end.

(** What [ai.models.generateContent] does: it rejects, or it answers with
    [response.candidates?.[0]?.content?.parts]. *)
Inductive ApiResponse :=
  | Rejected (err : JsError)
  | Responded (parts : option (list Part)).

(** How [generateProPhoto] settles, given [process.env.API_KEY] and what
    the service does: the [catch] of the function throws again what it
    caught. *)
Definition generateProPhoto_outcome (apiKey : option string)
    (response : ApiResponse) : GeneratedImageResult + JsError :=
  if truthy_id apiKey then
    match response with
    | Rejected err => inr err
    | Responded None => inr (newError "The AI model returned no content.")
    | Responded (Some parts) =>
        match firstImage parts with
        | Some result => inl result
        | None => inr (newError "No image generated.")
        end
    end
  else inr (newError "API Key not found. Please connect your Google Cloud Project.").

(** ** [src/App.tsx]: the file picker, the queue indicator, the presets *)




Module MaterialPreset.
Record settings_t := mkSettings {
  textureIntensity : option Z;
  patinaIntensity : option Z;
  patinaVariation : option PatinaVariation;
  isPatinaEnabled : option bool
}.
Record t := mk {
  id : string;
  name : string;
  materialType : MaterialType;
  settings : settings_t
}.
End MaterialPreset.

(** [materialType === 'metal' || ... 'patina' || ... 'silver' || ... 'ammonia'] *)
Definition isMetalFamily (m : MaterialType) : bool :=
  match m with
  | metal | patina | silver | ammonia => true
  | _ => false
  end.

(** The cells the preset handlers read and write, and the presets in
    [localStorage]. *)
Record PresetState := {
  ps_settings : Settings;
  presets : list MaterialPreset.t;
  newPresetName : string;
  storedPresets : option (list MaterialPreset.t)
}.

(** The object literal of [handleSavePreset]. *)
Definition presetOf (id_ name_ : string) (g : Settings) : MaterialPreset.t :=
  MaterialPreset.mk id_ name_ (materialType g)
    (MaterialPreset.mkSettings
       (if bool_decide (materialType g = texture)
        then Some (textureIntensity g) else None)
       (if isPatinaEnabled g then Some (patinaIntensity g) else None)
       (if isMetalFamily (materialType g)
        then Some (patinaVariation g) else None)
       (if isMetalFamily (materialType g)
        then Some (isPatinaEnabled g) else None)).

(** [trimmed] is [newPresetName.trim()], [clock] is [Date.now()]. *)
Definition handleSavePreset (trimmed : string) (clock : Z) (st : PresetState)
    : PresetState :=
  if truthy_str trimmed then
    let newPreset := presetOf (pretty clock) trimmed (ps_settings st) in
    let updatedPresets := presets st ++ [newPreset] in
    {| ps_settings := ps_settings st; presets := updatedPresets;
       newPresetName := EmptyString; storedPresets := Some updatedPresets |}
  else st.

(** The setters [handleLoadPreset] calls, on the settings. *)
Definition handleLoadPreset (preset : MaterialPreset.t) (g : Settings)
    : Settings :=
  let ps := MaterialPreset.settings preset in
  {| materialType := MaterialPreset.materialType preset;
     textureIntensity :=
       default (textureIntensity g) (MaterialPreset.textureIntensity ps);
     patinaIntensity :=
       default (patinaIntensity g) (MaterialPreset.patinaIntensity ps);
     isPatinaEnabled :=
       default (isPatinaEnabled g) (MaterialPreset.isPatinaEnabled ps);
     patinaVariation :=
       default (patinaVariation g) (MaterialPreset.patinaVariation ps);
     shadowAngle := shadowAngle g;
     shadowIntensity := shadowIntensity g;
     backgroundDistance := backgroundDistance g;
     aspectRatio := aspectRatio g;
     enhancedLighting := enhancedLighting g |}.

(** * Notions of the specification and invariants *)

(** ** The store and the lock *)


(** The lock and the activations agree: without an activation the lock is
    free and no job is generating; with one, the lock holds its job's id
    and only that job can be generating, and not while the activation sits
    in its cooldown; there are never two activations. *)
Definition lockConsistent (s : State) : Prop :=
  match tasks s with
  | [] => processingId s = None
          ∧ ∀ j, j ∈ history s → HistoryItem.status j ≠ generating
  | [t] => processingId s = Some (HistoryItem.id (task_item t))
           ∧ HistoryItem.id (task_item t) ≠ EmptyString
           ∧ ∀ j, j ∈ history s → HistoryItem.status j = generating →
                  HistoryItem.id j = HistoryItem.id (task_item t)
                  ∧ ∀ w, task_phase t ≠ Cooldown w
  | _ => False
  end.

(** The invariant of the component: no id occurs twice in the store, no
    id is the empty string, and the lock agrees with the activations. *)
Definition Inv (s : State) : Prop :=
  NoDup (ids (history s))
  ∧ (∀ j, j ∈ history s → HistoryItem.id j ≠ EmptyString)
  ∧ lockConsistent s.

(** The selection the specification describes: a queued job of the store
    that no queued job precedes in time of submission. *)
Definition submittedEarliest (h : list HistoryItem.t) (item : HistoryItem.t)
    : Prop :=
  item ∈ h ∧ HistoryItem.status item = queued
  ∧ ∀ j, j ∈ h → HistoryItem.status j = queued →
         HistoryItem.timestamp item ≤ HistoryItem.timestamp j.

(** ** Failures *)

(** The cascade of the [catch] block: the credential pattern is looked for
    first, the throttling patterns next. *)
Inductive ErrorClass := CredentialExpired | RateLimited | Unclassified.

Definition classify (err : JsError) : ErrorClass :=
  if isAuthError err then CredentialExpired
  else if isRateLimit err then RateLimited
  else Unclassified.

(** Neither a resubmission of the job [x] nor a clearing of the store. *)
Definition keepsJob (x : string) (ev : Event) : Prop :=
  ev ≠ EvRegenerate x ∧ ev ≠ EvClear.

(** The job [x] has failed for good: in the store it is [failed], and no
    activation will write to it any more. *)
Definition failedForGood (x : string) (s : State) : Prop :=
  x ∈ ids (history s)
  ∧ (∀ j, j ∈ history s → HistoryItem.id j = x → HistoryItem.status j = failed)
  ∧ (∀ t, t ∈ tasks s → HistoryItem.id (task_item t) = x →
          ∃ w, task_phase t = Cooldown w).

(** A key event: the credential flag is written. *)
Definition isKeyEvent (ev : Event) : Prop :=
  ev = EvSelectKey ∨ ∃ selected, ev = EvCheckKey selected.

(** ** Jobs and their configuration *)

(** The configuration fields of a job. *)
Definition snapshotOf (j : HistoryItem.t) :=
  (HistoryItem.materialType j, HistoryItem.textureIntensity j,
   HistoryItem.patinaIntensity j, HistoryItem.patinaVariation j,
   HistoryItem.shadowAngle j, HistoryItem.shadowIntensity j,
   HistoryItem.backgroundDistance j, HistoryItem.aspectRatio j,
   HistoryItem.enhancedLighting j).



(** ** The rating log and the modes *)

(** The records of the log for one job id. *)
Definition recordsFor (target : string) (log : list RatingRecord.t)
    : list RatingRecord.t :=
  filter (λ r, RatingRecord.id r = target) log.

(** The logs [localStorage] can hold: nothing at first, and then whatever
    [handleRate] writes over a log it could hold. *)
Inductive logReachable : option (list RatingRecord.t) → Prop :=
  | logReachable_absent : logReachable None
  | logReachable_rate s target r :
      logReachable (storedRatings s) →
      logReachable (storedRatings (handleRate target r s)).

(** No job id occurs twice in the log. *)
Definition logInv (stored : option (list RatingRecord.t)) : Prop :=
  NoDup (RatingRecord.id <$> default [] stored).

(** How often a value occurs in a list. *)
Definition occurrences {A} `{EqDecision A} (x : A) (l : list A) : nat :=
  length (filter (λ y, y = x) l).

(** What the loop of [getMode] returns: the value whose running count is
    the first to reach the largest count of the list. *)
Definition firstToReachMax {A} `{EqDecision A} (l : list A) (m : A) : Prop :=
  ∃ pre post, l = pre ++ m :: post
    ∧ (∀ y, (occurrences y l ≤ occurrences m (pre ++ [m]))%nat)
    ∧ (∀ y, (occurrences y pre < occurrences m (pre ++ [m]))%nat).

(** What the specification describes: a most frequent value, and among
    the most frequent values the one that occurs first. *)
Definition modeByFirstOccurrence {A} `{EqDecision A} (l : list A) (m : A)
    : Prop :=
  m ∈ l
  ∧ (∀ y, (occurrences y l ≤ occurrences m l)%nat)
  ∧ (∀ y n, occurrences y l = occurrences m l → l !! n = Some y →
       ∃ k, (k ≤ n)%nat ∧ l !! k = Some m).

(** Occurrences counted on the keys of the [counts] object of [getMode]. *)
Definition occ {A} (String_ : A → string) (v : string) (l : list A) : nat :=
  length (filter (λ y, String_ y = v) l).

(** The invariant of the loop of [getMode] over the processed prefix [p]. *)
Definition modeInv {A} (String_ : A → string) (p : list A)
    (st : gmap string nat * nat * A) : Prop :=
  let '(counts, maxCount, mode) := st in
  (∀ v, default 0%nat (counts !! v) = occ String_ v p)
  ∧ (∀ v, (occ String_ v p ≤ maxCount)%nat)
  ∧ ((p = [] ∧ maxCount = 0%nat)
     ∨ ∃ pre post, p = pre ++ mode :: post
         ∧ occ String_ (String_ mode) (pre ++ [mode]) = maxCount
         ∧ ∀ v, (occ String_ v pre < maxCount)%nat).

(** The angle bucket of a record, [r.shadowAngle || 135] rounded to the
    nearest 45 degrees. *)
Definition bucketOf (r : RatingRecord.t) : Z :=
  angleBucket (or_num (RatingRecord.shadowAngle r) 135).

(** ** What an event does to the store *)

(** The object spread an event applies to the jobs with the id [target],
    when it applies one. *)
Definition spreadOf (s : State) (ev : Event) (target : string)
    (f : HistoryItem.t → HistoryItem.t) : Prop :=
  match ev with
  | EvRegenerate x => target = x ∧ f = regenerated (settings s) (now s)
  | EvRate x r => target = x ∧ f = with_rating r
  | EvQueueEffect =>
      ∃ item, nextItem (history s) = Some item
        ∧ target = HistoryItem.id item
        ∧ f = if hasImageData item then with_generating
              else with_failed ∘ with_generating
  | EvCallSettled k outcome =>
      ∃ item req,
        tasks s !! k = Some {| task_item := item; task_phase := Calling req |}
        ∧ target = HistoryItem.id item
        ∧ f = match outcome with
              | inl result =>
                  with_completed ("data:" +:+ res_mimeType result
                                  +:+ ";base64," +:+ imageData result)
              | inr _ => with_failed
              end
  | _ => False
  end.

(** A job in a final state holds no source bytes, and the picture of a
    completed job is a data URI. *)
Definition settledJobsPurged (h : list HistoryItem.t) : Prop :=
  ∀ j, j ∈ h →
    (HistoryItem.status j = completed ∨ HistoryItem.status j = failed →
     HistoryItem.base64Data j = None)
    ∧ (HistoryItem.status j = completed →
       ∃ mime data,
         HistoryItem.generatedImage j = "data:" +:+ mime +:+ ";base64," +:+ data).

(** An event that is not a rating. *)
Definition isRating (ev : Event) : bool :=
  match ev with EvRate _ _ => true | _ => false end.

(** ** The wake-up of an activation *)

(** The event that lets the activation [t] go on from where it waits: the
    end of its delay, once the clock has reached it, or the outcome of its
    external call. *)
Definition wakes (t : Task) (s : State) (ev : Event) : Prop :=
  match task_phase t, ev with
  | Throttle wake, EvThrottleDone _ => wake ≤ now s
  | Calling _, EvCallSettled _ _ => True
  | Cooldown wake, EvCooldownDone _ => wake ≤ now s
  | _, _ => False
  end.

Definition isCallSettled (ev : Event) : bool :=
  match ev with EvCallSettled _ _ => true | _ => false end.

Definition isStart (ev : Event) : bool :=
  match ev with EvStart => true | _ => false end.


(** * Sample data *)

Definition sampleFile (type_ name_ rnd : string) : File :=
  {| file_type := type_; file_size := 2048; file_name := name_;
     file_dataUri := Some ("data:" +:+ type_ +:+ ";base64,QUJD");
     file_rnd := rnd |}.

Definition fileA : File := sampleFile "image/png" "a.png" "k3j9x0q1z".
Definition fileB : File := sampleFile "image/jpeg" "b.jpg" "p7m2c5v8w".

(** Thirty images picked at once. *)
Definition thirtyFiles : list File :=
  (λ n : nat, sampleFile "image/png" "batch.png" ("r" +:+ pretty n))
    <$> seq 0 30.

(** The component after the key was found and thirty images were queued. *)
Definition fullQueue : State :=
  default (init None 0)
    (run [EvCheckKey true; EvUpload thirtyFiles] (init None 1700000000000)).


(** One image is queued, five milliseconds later a second one, and the
    queue is started. *)
Definition twoSubmissions : State :=
  default (init None 0)
    (run [EvCheckKey true; EvUpload [fileA]; EvTick 5; EvUpload [fileB];
          EvStart]
         (init None 1700000000000)).

(** Errors of the external call: an unclassified one, a throttling one
    and the one of an expired credential. *)
Definition networkError : JsError :=
  {| message := Some "Failed to fetch"; err_status := None |}.

Definition quotaError : JsError :=
  {| message := Some "You exceeded your current quota, please check your plan and billing details.";
     err_status := Some 429 |}.

Definition notFoundError : JsError :=
  {| message := Some "Requested entity was not found.";
     err_status := Some 404 |}.

(** The settings after the patina was switched on, which puts its
    intensity at 50, and off again. *)
Definition patinaOffAtFifty : Settings :=
  {| materialType := metal; textureIntensity := 50; patinaIntensity := 50;
     isPatinaEnabled := false; patinaVariation := pv_standard;
     shadowAngle := 135; shadowIntensity := soft; backgroundDistance := 0;
     aspectRatio := ar_1_1; enhancedLighting := true |}.

(** One image is queued and dispatched, the external call fails with the
    unclassified error, and the settings are changed. *)
Definition failedJobEvents : list Event :=
  [EvCheckKey true; EvUpload [fileA]; EvStart; EvQueueEffect; EvTick 1000;
   EvThrottleDone 0; EvCallSettled 0 (inr networkError);
   EvSettings patinaOffAtFifty].

Definition failedJob : State :=
  default (init None 0) (run failedJobEvents (init None 1700000000000)).

(** The failed job of that state. *)
Definition failedJobItem : HistoryItem.t :=
  default (HistoryItem.mk EmptyString EmptyString EmptyString 0 queued
             None None None None None None None None None None None None None)
          (history failedJob !! 0%nat).

(** One image is queued and rated 3. *)
Definition ratedOnce : State :=
  default (init None 0)
    (run [EvCheckKey true; EvUpload [fileA]; EvRate "1700000000000k3j9x0q1z" 3]
         (init None 1700000000000)).

Definition ratedOnceItem : HistoryItem.t :=
  default failedJobItem (history ratedOnce !! 0%nat).

(** A rating record with the given shadow intensity, lighting flag and
    rating, for the examples. *)
Definition sampleRating (shadow : ShadowIntensity) (enhanced : bool) (r : Z)
    : RatingRecord.t :=
  RatingRecord.mk "1700000000000k3j9x0q1z" r 1700000000000 (Some metal)
    (Some shadow) (Some 135) (Some 0) (Some enhanced) (Some 50) (Some 0)
    (Some pv_standard) (Some ar_1_1).

(** Two images are queued, the queue is started, the first job is
    dispatched and, the throttle delay over, the external call is pending. *)
Definition callPendingEvents : list Event :=
  [EvCheckKey true; EvUpload [fileA; fileB]; EvStart; EvQueueEffect;
   EvTick 1000; EvThrottleDone 0].

Definition callPending : State :=
  default (init None 0) (run callPendingEvents (init None 1700000000000)).

(** The job of the pending call and its payload. *)
Definition callPendingItem : HistoryItem.t :=
  default failedJobItem (task_item <$> tasks callPending !! 0%nat).

Definition callPendingRequest : geminiService.Request :=
  requestOf callPendingItem EmptyString.

(** The state after the credential error. *)
Definition credentialExpired : State :=
  default (init None 0)
    (callSettled 0 (inr notFoundError) callPending).

(** An image file of no bytes, as [readAsDataURL] gives it. *)
Definition emptyFile : File :=
  {| file_type := "image/png"; file_size := 0; file_name := "empty.png";
     file_dataUri := Some "data:image/png;base64,"; file_rnd := "e0e0e0e0e" |}.

(** The empty image is queued and the queue is started. *)
Definition emptyQueued : State :=
  default (init None 0)
    (run [EvCheckKey true; EvUpload [emptyFile]; EvStart]
         (init None 1700000000000)).

(** One job has failed, the queue is paused and thirty more images are
    queued. *)
Definition fullAfterFailureEvents : list Event :=
  [EvCheckKey true; EvUpload [fileA]; EvStart; EvQueueEffect; EvTick 1000;
   EvThrottleDone 0; EvCallSettled 0 (inr networkError); EvPause;
   EvUpload thirtyFiles].

Definition fullAfterFailure : State :=
  default (init None 0) (run fullAfterFailureEvents (init None 1700000000000)).

(** * Properties *)

(** ** The capacity ceiling of the store *)

(** C3.  A batch of [N] valid files ([N] at least one: with no valid file
    the handler has already returned with its "no valid images" message)
    that would bring the count of queued and generating jobs above 30 is
    rejected as a whole: the only change of the state is the capacity
    message in [error]; the store keeps every job it had and gains none. *)
Theorem capacity_rejects_whole_batch (fileList : list File) (s : State) :
  let N := Z.of_nat (length (List.filter isValidFile fileList)) in
  0 < N →
  30 < activeCount (history s) + N →
  (processUploadedFiles fileList s
     = setError (Some (queueLimitMessage (activeCount (history s)))) s)
  ∧ (history (processUploadedFiles fileList s) = history s).
Proof.
  intros N HN Hover. unfold processUploadedFiles.
  rewrite bool_decide_eq_false_2 by (subst N; lia).
  cbn [history setError].
  assert ((MAX_QUEUE_SIZE <? (activeCount (history s)
            + Z.of_nat (length (List.filter isValidFile fileList)))) = true) as ->.
  { apply Z.ltb_lt. unfold MAX_QUEUE_SIZE. subst N. lia. }
  split; reflexivity.
Qed.

Lemma capacity_rejects_whole_batch_witness :
  (processUploadedFiles [fileA] fullQueue
     = setError (Some "Queue limit reached (30). You can only add 0 more images.")
                fullQueue)
  ∧ (history (processUploadedFiles [fileA] fullQueue) = history fullQueue).
Proof.
  apply (capacity_rejects_whole_batch [fileA] fullQueue); vm_compute; reflexivity.
Defined.

(** Without a valid file the handler has returned before it counts: the
    store is left as it is, with the message for that case. *)
Lemma no_valid_file_leaves_store (fileList : list File) (s : State) :
  List.filter isValidFile fileList = [] →
  processUploadedFiles fileList s
  = setError (Some "No valid images selected (Max 10MB, JPG/PNG/WEBP).") s.
Proof. intros Hnone. unfold processUploadedFiles. by rewrite Hnone. Qed.

(** ** The directive compiler *)





(** ** The single-flight invariant *)

(** *** Decimal strings are not empty *)

Lemma pretty_N_go_length x s :
  (String.length s ≤ String.length (pretty_N_go x s))%nat.
Proof.
  revert s. induction (N.lt_wf_0 x) as [x _ IH]. intros s.
  destruct (decide (x = 0%N)) as [->|Hx].
  - by rewrite pretty_N_go_0.
  - rewrite pretty_N_go_step by lia.
    etrans; [|apply IH; apply N.div_lt; lia]. simpl. lia.
Qed.

Lemma pretty_N_nonempty (x : N) : pretty x ≠ EmptyString.
Proof.
  unfold pretty, pretty_N. case_decide; [done|].
  rewrite pretty_N_go_step by lia. intros Hempty.
  pose proof (pretty_N_go_length (x `div` 10)
                (String (pretty_N_char (x `mod` 10)) EmptyString)) as Hlen.
  rewrite Hempty in Hlen. simpl in Hlen. lia.
Qed.

Lemma pretty_Z_nonempty (z : Z) : pretty z ≠ EmptyString.
Proof.
  destruct z as [|p|p]; [done| |done].
  apply (pretty_N_nonempty (Npos p)).
Qed.

Lemma append_nonempty_l (a b : string) : a ≠ EmptyString → a +:+ b ≠ EmptyString.
Proof. destruct a; [done|]. intros _. discriminate. Qed.

Lemma truthy_str_true s : truthy_str s = true ↔ s ≠ EmptyString.
Proof. unfold truthy_str. by rewrite bool_decide_eq_true. Qed.

(** *** The object spreads keep the id *)

Lemma id_with_generating i : HistoryItem.id (with_generating i) = HistoryItem.id i.
Proof. reflexivity. Qed.
Lemma id_with_completed u i : HistoryItem.id (with_completed u i) = HistoryItem.id i.
Proof. reflexivity. Qed.
Lemma id_with_failed i : HistoryItem.id (with_failed i) = HistoryItem.id i.
Proof. reflexivity. Qed.
Lemma id_with_rating r i : HistoryItem.id (with_rating r i) = HistoryItem.id i.
Proof. reflexivity. Qed.
Lemma id_regenerated g c i : HistoryItem.id (regenerated g c i) = HistoryItem.id i.
Proof. reflexivity. Qed.

Lemma ids_mapById target f h :
  (∀ i, HistoryItem.id (f i) = HistoryItem.id i) →
  ids (mapById target f h) = ids h.
Proof.
  intros Hf. unfold ids, mapById. rewrite <-list_fmap_compose.
  apply list_fmap_ext. intros n i Hn. cbn. by case_decide.
Qed.

Lemma elem_of_mapById j' target f h :
  j' ∈ mapById target f h ↔
  ∃ j, j ∈ h ∧ j' = if decide (HistoryItem.id j = target) then f j else j.
Proof.
  unfold mapById. rewrite list_elem_of_fmap.
  split; intros (j & H1 & H2); exists j; done.
Qed.

Lemma lookup_mapById target f h n :
  mapById target f h !! n
  = (λ i, if decide (HistoryItem.id i = target) then f i else i) <$> h !! n.
Proof. unfold mapById. by rewrite list_lookup_fmap. Qed.

Lemma elem_of_ids j h : j ∈ h → HistoryItem.id j ∈ ids h.
Proof. intros. unfold ids. by apply list_elem_of_fmap_2. Qed.

Lemma filter_none {A} (P : A → Prop) `{∀ x, Decision (P x)} (l : list A) :
  (∀ x, x ∈ l → ¬ P x) → filter P l = [].
Proof.
  induction l as [|x l IH]; intros Hl; [done|].
  rewrite filter_cons_False by (apply Hl; left).
  apply IH. intros y Hy. apply Hl. by right.
Qed.


(** *** Each handler keeps the invariant *)

#[local] Arguments mapById : simpl never.
#[local] Arguments ids : simpl never.

Lemma Inv_ext s s' :
  history s' = history s → tasks s' = tasks s →
  processingId s' = processingId s → Inv s → Inv s'.
Proof.
  unfold Inv, lockConsistent. intros -> -> ->. done.
Qed.

(** A pointwise update that keeps the ids and makes no job generating. *)
Lemma Inv_mapById target f s :
  (∀ i, HistoryItem.id (f i) = HistoryItem.id i) →
  (∀ i, HistoryItem.status (f i) = generating →
        HistoryItem.status i = generating) →
  Inv s → Inv (setHistory (mapById target f) s).
Proof.
  intros Hid Hst (Hnd & Hne & Hlock). unfold Inv, lockConsistent in *. cbn.
  rewrite ids_mapById by done.
  assert (∀ j', j' ∈ mapById target f (history s) →
            ∃ j, j ∈ history s ∧ HistoryItem.id j' = HistoryItem.id j
                 ∧ (HistoryItem.status j' = generating →
                    HistoryItem.status j = generating)) as Hback.
  { intros j' (j & Hj & ->)%elem_of_mapById. exists j.
    case_decide; auto. }
  split; [done|]. split.
  - intros j' (j & Hj & -> & _)%Hback. auto.
  - destruct (tasks s) as [|t [|]]; [| |done].
    + destruct Hlock as [Hp Hg]. split; [done|].
      intros j' (j & Hj & _ & Hs)%Hback Hgen. by apply (Hg j), Hs.
    + destruct Hlock as (Hp & Ht & Hg). split; [done|]. split; [done|].
      intros j' (j & Hj & -> & Hs)%Hback Hgen. apply (Hg j); auto.
Qed.

Lemma Inv_single_task s k t :
  Inv s → tasks s !! k = Some t → tasks s = [t] ∧ k = 0%nat.
Proof.
  intros (_ & _ & Hlock) Hk. unfold lockConsistent in Hlock.
  destruct (tasks s) as [|t' [|]]; [done| |done].
  destruct k; [|done]. cbn in Hk. by simplify_eq.
Qed.

(** The lock is seen as held whenever an activation exists. *)
Lemma Inv_lock_free s :
  Inv s → truthy_id (processingId s) = false →
  tasks s = [] ∧ ∀ j, j ∈ history s → HistoryItem.status j ≠ generating.
Proof.
  intros (_ & _ & Hlock) Hfree. unfold lockConsistent in Hlock.
  destruct (tasks s) as [|t [|]]; [by destruct Hlock| |done].
  destruct Hlock as (Hp & Ht & _). rewrite Hp in Hfree. cbn in Hfree.
  apply truthy_str_true in Ht. congruence.
Qed.

Lemma nextItem_Some h item :
  nextItem h = Some item →
  ∃ pre post, h = pre ++ item :: post
    ∧ HistoryItem.status item = queued
    ∧ ∀ x, x ∈ pre → HistoryItem.status x ≠ queued.
Proof.
  unfold nextItem. intros H.
  destruct (list_find _ h) as [[n x]|] eqn:Hfind; [|done].
  cbn in H. injection H as ->.
  apply list_find_Some in Hfind as (Hn & Hq & Hbefore).
  exists (take n h), (drop (S n) h). split; [|split; [done|]].
  - symmetry. by apply take_drop_middle.
  - intros x (m & Hm)%list_elem_of_lookup_1.
    apply lookup_take_Some in Hm as [Hm Hmn]. by eapply Hbefore.
Qed.

Lemma nextItem_elem_of h item :
  nextItem h = Some item → item ∈ h ∧ HistoryItem.status item = queued.
Proof.
  intros (pre & post & -> & Hq & _)%nextItem_Some. split; [|done].
  apply elem_of_app. right. left.
Qed.

Lemma mapById_mapById target f g h :
  (∀ i, HistoryItem.id (g i) = HistoryItem.id i) →
  mapById target f (mapById target g h) = mapById target (f ∘ g) h.
Proof.
  intros Hg. unfold mapById. rewrite <-list_fmap_compose.
  apply list_fmap_ext. intros n i Hn. cbn.
  destruct (decide (HistoryItem.id i = target)) as [Hi|Hi].
  - rewrite decide_True by by rewrite Hg. done.
  - by rewrite decide_False.
Qed.

Lemma missingImageData_generic :
  isAuthError missingImageData = false ∧ isRateLimit missingImageData = false.
Proof. split; reflexivity. Qed.

Lemma newItem_Some g clock file j :
  newItem g clock file = Some j →
  HistoryItem.status j = queued
  ∧ HistoryItem.id j = pretty clock +:+ file_rnd file
  ∧ HistoryItem.timestamp j = clock.
Proof.
  unfold newItem. destruct (file_dataUri file); [|done].
  cbn. intros [= <-]. done.
Qed.

Lemma Inv_processUploadedFiles fileList s :
  freshIds fileList s → Inv s → Inv (processUploadedFiles fileList s).
Proof.
  intros Hfresh HI. unfold processUploadedFiles.
  case_bool_decide; [by eapply Inv_ext; [..|exact HI]|].
  cbn [history setError].
  destruct (MAX_QUEUE_SIZE <? _); [by eapply Inv_ext; [..|exact HI]|].
  destruct HI as (Hnd & Hne & Hlock). unfold Inv, lockConsistent in *.
  cbn. unfold freshIds, ids in Hfresh. rewrite <-fmap_app in Hfresh.
  set (newItems := omap _ _) in *.
  assert (∀ j, j ∈ newItems → HistoryItem.status j = queued
                              ∧ HistoryItem.id j ≠ EmptyString) as Hnew.
  { intros j (file & _ & Hfile)%list_elem_of_omap.
    apply newItem_Some in Hfile as (Hq & Hid & _). split; [done|].
    rewrite Hid. apply append_nonempty_l, pretty_Z_nonempty. }
  split; [done|]. split.
  - intros j [Hj|Hj]%elem_of_app; [by apply Hnew|by apply Hne].
  - destruct (tasks s) as [|t [|]]; [| |done].
    + destruct Hlock as [Hp Hg]. split; [done|].
      intros j [Hj|Hj]%elem_of_app; [|by apply Hg].
      apply Hnew in Hj as [-> _]. done.
    + destruct Hlock as (Hp & Ht & Hg). split; [done|]. split; [done|].
      intros j [Hj|Hj]%elem_of_app; [|by apply Hg].
      apply Hnew in Hj as [-> _]. done.
Qed.

Lemma Inv_handleRegenerate target s : Inv s → Inv (handleRegenerate target s).
Proof. intros. apply Inv_mapById; [done| |done]. intros i. cbn. done. Qed.

Lemma Inv_handleRate target r s : Inv s → Inv (handleRate target r s).
Proof.
  intros HI. unfold handleRate.
  assert (Inv (setHistory (mapById target (with_rating r)) s)) as HI'.
  { apply Inv_mapById; [done| |done]. intros i. cbn. done. }
  destruct (list_find _ _) as [[n item]|]; [|done].
  by eapply Inv_ext; [..|exact HI'].
Qed.

(** Taking the lock for [item], a queued job of the store, while no
    activation exists. *)
Lemma Inv_processQueueItem item s :
  Inv s → tasks s = [] →
  (∀ j, j ∈ history s → HistoryItem.status j ≠ generating) →
  item ∈ history s →
  Inv (processQueueItem item s).
Proof.
  intros (Hnd & Hne & Hlock) Htasks Hnone Hitem.
  assert (∀ f j', (∀ i, HistoryItem.id (f i) = HistoryItem.id i) →
            j' ∈ mapById (HistoryItem.id item) f (history s) →
            ∃ j, j ∈ history s ∧ HistoryItem.id j' = HistoryItem.id j
                 ∧ (HistoryItem.id j ≠ HistoryItem.id item → j' = j)
                 ∧ (HistoryItem.id j = HistoryItem.id item → j' = f j)) as Hback.
  { intros f j' Hf (j & Hj & ->)%elem_of_mapById. exists j.
    case_decide; rewrite ?Hf; done. }
  unfold processQueueItem. destruct (hasImageData item).
  - unfold Inv, lockConsistent. cbn. rewrite Htasks. cbn.
    rewrite ids_mapById by done. split; [done|]. split.
    + intros j' (j & Hj & -> & _)%Hback; auto.
    + split; [done|]. split; [by apply Hne|].
      intros j' (j & Hj & Hid & Hother & _)%Hback Hgen; [|done].
      split; [|done]. rewrite Hid.
      destruct (decide (HistoryItem.id j = HistoryItem.id item)); [done|].
      rewrite Hother in Hgen by done. by apply Hnone in Hgen.
  - unfold catchBlock.
    destruct missingImageData_generic as [-> ->].
    unfold Inv, lockConsistent. cbn. rewrite Htasks.
    rewrite mapById_mapById by done. rewrite ids_mapById by done.
    split; [done|]. split.
    + intros j' (j & Hj & -> & _)%Hback; auto.
    + split; [done|].
      intros j' (j & Hj & Hid & Hother & Hsame)%Hback Hgen; [|done].
      destruct (decide (HistoryItem.id j = HistoryItem.id item)).
      * rewrite Hsame in Hgen by done. done.
      * rewrite Hother in Hgen by done. by apply Hnone in Hgen.
Qed.

Lemma Inv_queueEffect s : Inv s → Inv (queueEffect s).
Proof.
  intros HI. unfold queueEffect.
  destruct (isQueueRunning s); [|done]. cbn.
  destruct (truthy_id (processingId s)) eqn:Hlock; [done|].
  destruct (nextItem (history s)) as [item|] eqn:Hnext.
  - apply Inv_lock_free in Hlock as [Htasks Hnone]; [|done].
    apply nextItem_elem_of in Hnext as [Hitem _].
    by apply Inv_processQueueItem.
  - by eapply Inv_ext; [..|exact HI].
Qed.

Lemma Inv_throttleDone k s s' : Inv s → throttleDone k s = Some s' → Inv s'.
Proof.
  intros HI H. unfold throttleDone in H.
  destruct (tasks s !! k) as [[item [wake|req|wake]]|] eqn:Hk; try done.
  destruct (wake <=? now s); [|done]. injection H as <-.
  destruct (Inv_single_task _ _ _ HI Hk) as [Htasks ->].
  destruct HI as (Hnd & Hne & Hlock). unfold Inv, lockConsistent in *.
  cbn. rewrite Htasks in *. cbn in *.
  destruct Hlock as (Hp & Ht & Hg). repeat split; try done.
  by apply (Hg j).
Qed.

(** Releasing the lock after every job with the id of the activation was
    given a final status. *)
Lemma Inv_release f s t :
  (∀ i, HistoryItem.id (f i) = HistoryItem.id i) →
  (∀ i, HistoryItem.status (f i) ≠ generating) →
  Inv s → tasks s = [t] →
  Inv (finallyBlock
         (setTasks (delete 0%nat)
            (setHistory (mapById (HistoryItem.id (task_item t)) f) s))).
Proof.
  intros Hid Hst (Hnd & Hne & Hlock) Htasks.
  unfold Inv, lockConsistent in *. cbn. rewrite Htasks in *. cbn.
  rewrite ids_mapById by done. destruct Hlock as (Hp & Ht & Hg).
  split; [done|]. split.
  - intros j' (j & Hj & ->)%elem_of_mapById. case_decide; rewrite ?Hid; auto.
  - split; [done|]. intros j' (j & Hj & ->)%elem_of_mapById.
    case_decide as Hj'; [apply Hst|]. intros Hgen.
    by destruct (Hg j Hj Hgen).
Qed.

Lemma Inv_callSettled k outcome s s' :
  Inv s → callSettled k outcome s = Some s' → Inv s'.
Proof.
  intros HI H. unfold callSettled in H.
  destruct (tasks s !! k) as [[item [wake|req|wake]]|] eqn:Hk; try done.
  destruct (Inv_single_task _ _ _ HI Hk) as [Htasks ->].
  destruct outcome as [result|err].
  - injection H as <-.
    by apply (Inv_release (with_completed _) s
                {| task_item := item; task_phase := Calling req |}).
  - unfold catchBlock in H.
    pose proof (Inv_release with_failed s _ id_with_failed
                  (λ _, ltac:(done)) HI Htasks) as Hrel.
    destruct (isAuthError err).
    + injection H as <-. by eapply Inv_ext; [..|exact Hrel].
    + destruct (isRateLimit err); injection H as <-; [|done].
      destruct HI as (Hnd & Hne & Hlock). unfold Inv, lockConsistent in *.
      cbn. rewrite Htasks in *. cbn in *.
      rewrite ids_mapById by done. destruct Hlock as (Hp & Ht & Hg).
      split; [done|]. split.
      * intros j' (j & Hj & ->)%elem_of_mapById. case_decide; cbn; auto.
      * split; [done|]. split; [done|].
        intros j' (j & Hj & ->)%elem_of_mapById. case_decide; [done|].
        intros Hgen. destruct (Hg j Hj Hgen) as [? _]. done.
Qed.

Lemma Inv_cooldownDone k s s' : Inv s → cooldownDone k s = Some s' → Inv s'.
Proof.
  intros HI H. unfold cooldownDone in H.
  destruct (tasks s !! k) as [[item [wake|req|wake]]|] eqn:Hk; try done.
  destruct (wake <=? now s); [|done]. injection H as <-.
  destruct (Inv_single_task _ _ _ HI Hk) as [Htasks ->].
  destruct HI as (Hnd & Hne & Hlock). unfold Inv, lockConsistent in *.
  cbn. rewrite Htasks in *. cbn in *.
  destruct Hlock as (Hp & Ht & Hg). repeat split; try done.
  intros j Hj Hgen. destruct (Hg j Hj Hgen) as [_ Hphase]. by eapply Hphase.
Qed.

Lemma Inv_handle ev s s' : Inv s → handle ev s = Some s' → Inv s'.
Proof.
  intros HI H. destruct ev; cbn in H.
  - destruct (0 <=? d); [|done]. injection H as <-. by eapply Inv_ext.
  - case_decide; [|done]. injection H as <-.
    by apply Inv_processUploadedFiles.
  - injection H as <-. by apply Inv_handleRegenerate.
  - injection H as <-. by apply Inv_handleRate.
  - injection H as <-. by eapply Inv_ext.
  - injection H as <-. by eapply Inv_ext.
  - injection H as <-. destruct HI as (Hnd & Hne & Hlock).
    unfold Inv, lockConsistent in *. cbn.
    split; [constructor|]. split; [by intros j ?%elem_of_nil|].
    destruct (tasks s) as [|t [|]]; [| |done].
    + split; [apply Hlock|]. by intros j ?%elem_of_nil.
    + destruct Hlock as (Hp & Ht & _). repeat split; try done.
      all: by apply elem_of_nil in H.
  - injection H as <-. by eapply Inv_ext.
  - injection H as <-. by eapply Inv_ext.
  - injection H as <-. by eapply Inv_ext.
  - injection H as <-. by apply Inv_queueEffect.
  - by eapply Inv_throttleDone.
  - by eapply Inv_callSettled.
  - by eapply Inv_cooldownDone.
Qed.

Lemma Inv_run evs s s' : Inv s → run evs s = Some s' → Inv s'.
Proof.
  revert s. induction evs as [|ev evs IH]; intros s HI H; cbn in H.
  - by injection H as <-.
  - destruct (handle ev s) as [s1|] eqn:Hev; [|done]. cbn in H.
    eapply IH; [|done]. by eapply Inv_handle.
Qed.

Lemma Inv_init stored clock : Inv (init stored clock).
Proof.
  unfold Inv, lockConsistent. cbn. split; [constructor|].
  split; [|split; [done|]]; by intros j ?%elem_of_nil.
Qed.

Lemma Inv_reachable s : reachable s → Inv s.
Proof.
  intros (stored & clock & evs & H). eapply Inv_run; [|done]. apply Inv_init.
Qed.



(** ** The order of dispatch *)

Lemma nextItem_first_queued pre item post :
  HistoryItem.status item = queued →
  (∀ x, x ∈ pre → HistoryItem.status x ≠ queued) →
  nextItem (pre ++ item :: post) = Some item.
Proof.
  intros Hq Hpre. unfold nextItem.
  assert (list_find (λ i, HistoryItem.status i = queued) (pre ++ item :: post)
          = Some (length pre, item)) as ->; [|done].
  apply list_find_Some. split; [|split; [done|]].
  - by rewrite list_lookup_middle.
  - intros n y Hn Hlt. apply Hpre.
    rewrite lookup_app_l in Hn by done. by eapply list_elem_of_lookup_2.
Qed.

(** C1, as the code has it.  With the run flag on and the lock free, the
    queue effect takes the first job of the store, in store order, whose
    status is [queued], and starts its activation: the lock holds its id
    and the job is marked [generating].  As an accepted batch is put in
    front of the store, that job is the first of the newest batch, however
    long older jobs have been waiting. *)
Theorem dispatch_follows_store_order (s : State) (item : HistoryItem.t) :
  isQueueRunning s = true →
  truthy_id (processingId s) = false →
  nextItem (history s) = Some item →
  (∃ pre post, history s = pre ++ item :: post
     ∧ HistoryItem.status item = queued
     ∧ ∀ x, x ∈ pre → HistoryItem.status x ≠ queued)
  ∧ queueEffect s = processQueueItem item s
  ∧ (hasImageData item = true →
       processingId (queueEffect s) = Some (HistoryItem.id item)
       ∧ history (queueEffect s)
         = mapById (HistoryItem.id item) with_generating (history s))
  ∧ (∀ fileList s0 j batch,
       omap (newItem (settings s0) (now s0)) (List.filter isValidFile fileList)
         = j :: batch →
       history s = (j :: batch) ++ history s0 →
       item = j).
Proof.
  intros Hrun Hfree Hnext.
  assert (queueEffect s = processQueueItem item s) as Heff.
  { unfold queueEffect. by rewrite Hrun, Hfree, Hnext. }
  split; [by apply nextItem_Some|]. split; [done|]. split.
  - intros Hdata. rewrite Heff. unfold processQueueItem. rewrite Hdata. done.
  - intros fileList s0 j batch Hbatch Hh.
    assert (HistoryItem.status j = queued) as Hj.
    { assert (j ∈ omap (newItem (settings s0) (now s0))
                       (List.filter isValidFile fileList)) as Hin.
      { rewrite Hbatch. left. }
      apply list_elem_of_omap in Hin as (file & _ & Hfile).
      by apply newItem_Some in Hfile as [? _]. }
    change ((j :: batch) ++ history s0)
      with ([] ++ j :: (batch ++ history s0)) in Hh.
    rewrite Hh in Hnext.
    rewrite (nextItem_first_queued [] j (batch ++ history s0)) in Hnext.
    + by injection Hnext.
    + done.
    + by intros x ?%elem_of_nil.
Qed.

Lemma dispatch_follows_store_order_witness :
  processingId (queueEffect twoSubmissions) = Some "1700000000005p7m2c5v8w".
Proof.
  set (item := default (HistoryItem.mk EmptyString EmptyString EmptyString 0
                          queued None None None None None None None None None
                          None None None None)
                 (nextItem (history twoSubmissions))).
  apply (dispatch_follows_store_order twoSubmissions item);
    vm_compute; reflexivity.
Defined.

(** C1, as the claim has it, fails: after the two submissions the store
    holds the later job before the earlier one, both queued, and the queue
    effect dispatches the later one. *)
Lemma earliest_submitted_not_dispatched :
  reachable twoSubmissions
  ∧ isQueueRunning twoSubmissions = true
  ∧ processingId twoSubmissions = None
  ∧ ids (history twoSubmissions)
    = ["1700000000005p7m2c5v8w"; "1700000000000k3j9x0q1z"]
  ∧ HistoryItem.status <$> history twoSubmissions = [queued; queued]
  ∧ HistoryItem.timestamp <$> history twoSubmissions
    = [1700000000005; 1700000000000]
  ∧ processingId (queueEffect twoSubmissions) = Some "1700000000005p7m2c5v8w"
  ∧ HistoryItem.status <$> history (queueEffect twoSubmissions)
    = [generating; queued]
  ∧ ¬ (∀ item, nextItem (history twoSubmissions) = Some item →
               submittedEarliest (history twoSubmissions) item).
Proof.
  split.
  { exists None, 1700000000000,
      [EvCheckKey true; EvUpload [fileA]; EvTick 5; EvUpload [fileB]; EvStart].
    vm_compute. reflexivity. }
  repeat (split; [vm_compute; reflexivity|]).
  intros Hclaim.
  destruct (nextItem (history twoSubmissions)) as [item|] eqn:Hnext;
    [|vm_compute in Hnext; discriminate].
  destruct (Hclaim item eq_refl) as (_ & _ & Hmin).
  assert (∃ jA, jA ∈ history twoSubmissions
                ∧ HistoryItem.status jA = queued
                ∧ HistoryItem.timestamp jA = 1700000000000) as (jA & HA & HqA & HtA).
  { destruct (history twoSubmissions !! 1%nat) as [jA|] eqn:HjA;
      [|vm_compute in HjA; discriminate].
    exists jA. split; [by eapply list_elem_of_lookup_2|].
    vm_compute in HjA. injection HjA as <-. done. }
  specialize (Hmin jA HA HqA). rewrite HtA in Hmin.
  vm_compute in Hnext. injection Hnext as <-. cbn in Hmin. lia.
Qed.

(** ** Resubmission *)

(** C6, as the code has it.  Resubmitting a failed job of the store puts,
    at its place, the job with status [queued], no result, the image data
    and the media type read back from the preview data URI, and the
    current settings as its configuration, the patina intensity being the
    current one when the patina switch is on and 0 when it is off; the
    jobs with another id stay as they are. *)
Theorem resubmit_restamps_with_current_settings
    (s : State) (target : string) (pos : nat) (j : HistoryItem.t) :
  history s !! pos = Some j →
  HistoryItem.id j = target →
  HistoryItem.status j = failed →
  let g := settings s in
  let parts := split_on "," (HistoryItem.originalImage j) in
  ∃ j', history (handleRegenerate target s) !! pos = Some j'
    ∧ HistoryItem.id j' = HistoryItem.id j
    ∧ HistoryItem.status j' = queued
    ∧ HistoryItem.generatedImage j' = EmptyString
    ∧ HistoryItem.originalImage j' = HistoryItem.originalImage j
    ∧ HistoryItem.base64Data j' = parts !! 1%nat
    ∧ HistoryItem.mimeType j'
      = Some (default "image/png"
                (match_mime (default EmptyString (parts !! 0%nat))))
    ∧ snapshotOf j'
      = (Some (materialType g), Some (textureIntensity g),
         Some (if isPatinaEnabled g then patinaIntensity g else 0),
         Some (patinaVariation g), Some (shadowAngle g),
         Some (shadowIntensity g), Some (backgroundDistance g),
         Some (aspectRatio g), Some (enhancedLighting g))
    ∧ length (history (handleRegenerate target s)) = length (history s)
    ∧ ∀ n i, history s !! n = Some i → HistoryItem.id i ≠ target →
             history (handleRegenerate target s) !! n = Some i.
Proof.
  intros Hpos Hid Hfailed g parts.
  exists (regenerated (settings s) (now s) j).
  unfold handleRegenerate. cbn [history setHistory].
  split.
  { rewrite lookup_mapById, Hpos. cbn. by rewrite decide_True. }
  do 7 (split; [reflexivity|]). split.
  { unfold mapById. by rewrite length_fmap. }
  intros n i Hn Hi. rewrite lookup_mapById, Hn. cbn. by rewrite decide_False.
Qed.

Lemma resubmit_restamps_with_current_settings_witness :
  ∃ j', history (handleRegenerate "1700000000000k3j9x0q1z" failedJob) !! 0%nat
        = Some j'
    ∧ HistoryItem.status j' = queued
    ∧ HistoryItem.base64Data j' = Some "QUJD"
    ∧ HistoryItem.mimeType j' = Some "image/png"
    ∧ HistoryItem.patinaIntensity j' = Some 0.
Proof.
  destruct (resubmit_restamps_with_current_settings failedJob
              "1700000000000k3j9x0q1z" 0 failedJobItem)
    as (j' & Hpos & _ & Hq & _ & _ & Hdata & Hmime & Hsnap & _);
    [vm_compute; reflexivity..|].
  exists j'. split; [exact Hpos|]. split; [exact Hq|].
  split; [exact Hdata|]. split; [exact Hmime|].
  unfold snapshotOf in Hsnap. by simplify_eq.
Defined.

(** C6, as the claim has it, fails on the patina intensity: with the
    switch off and the slider at 50, the resubmitted job is stamped 0, not
    the 50 of the settings. *)
Lemma resubmit_patina_not_the_global_intensity :
  reachable failedJob
  ∧ HistoryItem.status <$> history failedJob = [failed]
  ∧ ids (history failedJob) = ["1700000000000k3j9x0q1z"]
  ∧ patinaIntensity (settings failedJob) = 50
  ∧ isPatinaEnabled (settings failedJob) = false
  ∧ HistoryItem.patinaIntensity
      <$> history (handleRegenerate "1700000000000k3j9x0q1z" failedJob)
    = [Some 0]
  ∧ ¬ (∀ j', j' ∈ history (handleRegenerate "1700000000000k3j9x0q1z" failedJob) →
             HistoryItem.patinaIntensity j'
             = Some (patinaIntensity (settings failedJob))).
Proof.
  split.
  { exists None, 1700000000000, failedJobEvents. vm_compute. reflexivity. }
  repeat (split; [vm_compute; reflexivity|]).
  intros Hclaim.
  destruct (history (handleRegenerate "1700000000000k3j9x0q1z" failedJob)
              !! 0%nat) as [j'|] eqn:Hj'; [|vm_compute in Hj'; discriminate].
  specialize (Hclaim j' (list_elem_of_lookup_2 _ _ _ Hj')).
  vm_compute in Hj'. injection Hj' as <-. vm_compute in Hclaim. discriminate.
Qed.

(** ** The rating log *)

Section keyed_lists.
Context {A : Type} (key : A → string).

Lemma filter_by_key_unique (l : list A) (n : nat) (a : A) :
  NoDup (key <$> l) → l !! n = Some a →
  filter (λ y, key y = key a) l = [a].
Proof.
  revert n. induction l as [|x l IH]; intros n Hnd Hn; [done|].
  rewrite fmap_cons in Hnd. apply NoDup_cons in Hnd as [Hx Hnd].
  destruct n as [|n]; cbn in Hn.
  - injection Hn as ->. rewrite filter_cons_True by done. f_equal.
    apply filter_none. intros y Hy Hkey. apply Hx. rewrite <-Hkey.
    by apply list_elem_of_fmap_2.
  - rewrite filter_cons_False; [by eapply IH|].
    intros Hkey. apply Hx. rewrite Hkey.
    apply list_elem_of_fmap_2. by eapply list_elem_of_lookup_2.
Qed.

Lemma filter_insert_other (P : A → Prop) `{∀ a, Decision (P a)}
    (l : list A) (n : nat) (old new : A) :
  l !! n = Some old → ¬ P old → ¬ P new →
  filter P (<[n := new]> l) = filter P l.
Proof.
  revert n. induction l as [|x l IH]; intros n Hn Hold Hnew; [done|].
  destruct n as [|n]; cbn in Hn.
  - injection Hn as ->.
    change (<[0%nat := new]> (old :: l)) with (new :: l).
    by rewrite !filter_cons_False.
  - change (<[S n := new]> (x :: l)) with (x :: <[n := new]> l).
    rewrite !filter_cons. rewrite (IH n) by done. done.
Qed.

Lemma length_filter_by_key (l : list A) (x : string) :
  NoDup (key <$> l) → (length (filter (λ y, key y = x) l) ≤ 1)%nat.
Proof.
  induction l as [|a l IH]; intros Hnd; [simpl; lia|].
  rewrite fmap_cons in Hnd. apply NoDup_cons in Hnd as [Ha Hnd].
  rewrite filter_cons. case_decide as Hkey; [|by apply IH].
  rewrite filter_none; [simpl; lia|].
  intros y Hy Hy'. apply Ha. rewrite Hkey, <-Hy'.
  by apply list_elem_of_fmap_2.
Qed.
End keyed_lists.

Lemma upsertRating_found rec log n old :
  list_find (λ r, RatingRecord.id r = RatingRecord.id rec) log = Some (n, old) →
  upsertRating rec log = <[n := rec]> log
  ∧ log !! n = Some old ∧ RatingRecord.id old = RatingRecord.id rec.
Proof.
  intros Hfind. unfold upsertRating. rewrite Hfind.
  apply list_find_Some in Hfind as (Hn & Hid & _). done.
Qed.

Lemma upsertRating_ids_found rec (log : list RatingRecord.t) (n : nat) old :
  log !! n = Some old → RatingRecord.id old = RatingRecord.id rec →
  RatingRecord.id <$> <[n := rec]> log = RatingRecord.id <$> log.
Proof.
  intros Hn Hid. rewrite list_fmap_insert. apply list_insert_id.
  by rewrite list_lookup_fmap, Hn, <-Hid.
Qed.

Lemma upsertRating_NoDup rec log :
  NoDup (RatingRecord.id <$> log) →
  NoDup (RatingRecord.id <$> upsertRating rec log).
Proof.
  intros Hnd.
  destruct (list_find (λ r, RatingRecord.id r = RatingRecord.id rec) log)
    as [[n old]|] eqn:Hfind.
  - apply upsertRating_found in Hfind as (-> & Hn & Hid).
    by erewrite upsertRating_ids_found.
  - unfold upsertRating. rewrite Hfind.
    apply list_find_None in Hfind. rewrite Forall_forall in Hfind.
    rewrite fmap_app. apply NoDup_app. split; [done|]. split.
    + intros x (r0 & Hx & Hr)%list_elem_of_fmap Hin.
      change (RatingRecord.id <$> [rec]) with [RatingRecord.id rec] in Hin.
      apply list_elem_of_singleton in Hin. apply (Hfind r0 Hr). congruence.
    + apply NoDup_singleton.
Qed.

Lemma logInv_handleRate target r s :
  logInv (storedRatings s) → logInv (storedRatings (handleRate target r s)).
Proof.
  intros Hinv. unfold handleRate.
  destruct (list_find _ (history s)) as [[n item]|]; [|done].
  cbn. by apply upsertRating_NoDup.
Qed.

Lemma logInv_reachable stored : logReachable stored → logInv stored.
Proof.
  induction 1 as [|s target r _ IH]; [constructor|].
  by apply logInv_handleRate.
Qed.

(** C7.  In every log the component can have written, and after one more
    rating, each job id has at most one record.  Rating a job of the store
    leaves exactly one record for it, carrying the new value: a record of
    that id is replaced where it stands, the length of the log unchanged,
    and without one the new record is appended; the records of other ids
    are untouched. *)
Theorem rating_log_one_record_per_job
    (s : State) (target : string) (r : Z) (pos : nat) (item : HistoryItem.t) :
  logReachable (storedRatings s) →
  list_find (λ i, HistoryItem.id i = target) (history s) = Some (pos, item) →
  let log := default [] (storedRatings s) in
  let log' := default [] (storedRatings (handleRate target r s)) in
  let rec := ratingRecordOf item r (now s) in
  (∀ x, (length (recordsFor x log) ≤ 1)%nat)
  ∧ (∀ x, (length (recordsFor x log') ≤ 1)%nat)
  ∧ recordsFor target log' = [rec]
  ∧ RatingRecord.rating rec = r
  ∧ (∀ x, x ≠ target → recordsFor x log' = recordsFor x log)
  ∧ (∀ n old, log !! n = Some old → RatingRecord.id old = target →
       log' = <[n := rec]> log ∧ length log' = length log)
  ∧ (recordsFor target log = [] → log' = log ++ [rec]).
Proof.
  intros Hreach Hitem log log' rec.
  pose proof (logInv_reachable _ Hreach) as Hinv.
  pose proof (logInv_handleRate target r s Hinv) as Hinv'.
  assert (RatingRecord.id rec = target) as Hrec.
  { apply list_find_Some in Hitem as (_ & Hid & _). done. }
  assert (log' = upsertRating rec log) as Hlog'.
  { unfold log', handleRate. rewrite Hitem. done. }
  split; [intros x; by apply length_filter_by_key|].
  split; [intros x; by apply length_filter_by_key|].
  destruct (list_find (λ r0, RatingRecord.id r0 = RatingRecord.id rec) log)
    as [[m old0]|] eqn:Hfind.
  - destruct (upsertRating_found _ _ _ _ Hfind) as (Hup & Hm & Hold0).
    rewrite Hup in Hlog'.
    assert (log' !! m = Some rec) as Hm'.
    { rewrite Hlog'. apply list_lookup_insert_eq. by eapply lookup_lt_Some. }
    split.
    { unfold recordsFor. rewrite <-Hrec.
      by apply (filter_by_key_unique RatingRecord.id log' m rec). }
    split; [done|]. split.
    { intros x Hx. unfold recordsFor. rewrite Hlog'.
      apply (filter_insert_other _ log m old0 rec); [done|..]; congruence. }
    split.
    { intros n old Hn Hold.
      assert (n = m) as ->.
      { eapply (NoDup_lookup (RatingRecord.id <$> log)); [exact Hinv|..].
        - by rewrite list_lookup_fmap, Hn.
        - rewrite list_lookup_fmap, Hm. cbn. congruence. }
      split; [done|]. rewrite Hlog'. apply length_insert. }
    intros Hnone. exfalso.
    assert (old0 ∈ recordsFor target log) as Hin.
    { unfold recordsFor. apply list_elem_of_filter. split; [congruence|].
      by eapply list_elem_of_lookup_2. }
    rewrite Hnone in Hin. by apply elem_of_nil in Hin.
  - assert (log' = log ++ [rec]) as Happ.
    { rewrite Hlog'. unfold upsertRating. by rewrite Hfind. }
    apply list_find_None in Hfind. rewrite Forall_forall in Hfind.
    assert (recordsFor target log = []) as Hnone.
    { unfold recordsFor. apply filter_none. intros y Hy Hkey.
      apply (Hfind y Hy). congruence. }
    split.
    { unfold recordsFor in *. rewrite Happ, filter_app, Hnone.
      by rewrite filter_cons_True. }
    split; [done|]. split.
    { intros x Hx. unfold recordsFor. rewrite Happ, filter_app.
      rewrite filter_cons_False by congruence. by rewrite filter_nil, app_nil_r. }
    split; [|done].
    intros n old Hn Hold. exfalso. apply (Hfind old); [|congruence].
    by eapply list_elem_of_lookup_2.
Qed.

Lemma rating_log_one_record_per_job_witness :
  RatingRecord.rating
    <$> default [] (storedRatings
                      (handleRate "1700000000000k3j9x0q1z" 5 ratedOnce))
  = [5].
Proof.
  destruct (rating_log_one_record_per_job ratedOnce "1700000000000k3j9x0q1z"
              5 0 ratedOnceItem) as (_ & _ & _ & _ & _ & Hreplace & _).
  - assert (storedRatings ratedOnce
            = storedRatings
                (handleRate "1700000000000k3j9x0q1z" 3
                   (default (init None 0)
                      (run [EvCheckKey true; EvUpload [fileA]]
                           (init None 1700000000000))))) as ->
      by (vm_compute; reflexivity).
    apply logReachable_rate. vm_compute. constructor.
  - vm_compute. reflexivity.
  - destruct (default [] (storedRatings ratedOnce) !! 0%nat) as [old|] eqn:Hold;
      [|vm_compute in Hold; discriminate].
    destruct (Hreplace 0%nat old Hold) as [-> _].
    + vm_compute in Hold. injection Hold as <-. reflexivity.
    + vm_compute. reflexivity.
Defined.

(** ** The preference aggregator *)

Section getMode_loop.
Context {A : Type} `{EqDecision A} (String_ : A → string).
Context `{!Inj (=) (=) String_}.

Lemma occ_snoc_same v l x : String_ x = v → occ String_ v (l ++ [x]) = S (occ String_ v l).
Proof.
  intros Hx. unfold occ. rewrite filter_app, length_app.
  rewrite filter_cons_True by done. cbn. lia.
Qed.

Lemma occ_snoc_other v l x : String_ x ≠ v → occ String_ v (l ++ [x]) = occ String_ v l.
Proof.
  intros Hx. unfold occ. rewrite filter_app, length_app.
  rewrite filter_cons_False by done. cbn. lia.
Qed.

Lemma occ_occurrences x l : occ String_ (String_ x) l = occurrences x l.
Proof.
  unfold occ, occurrences. f_equal. apply list_filter_iff.
  intros y. split; [apply (inj String_)|by intros ->].
Qed.

Lemma modeInv_step p st x :
  modeInv String_ p st → modeInv String_ (p ++ [x]) (getMode_step String_ st x).
Proof.
  destruct st as [[counts maxCount] mode]. intros (Hcounts & Hmax & Hmode).
  unfold getMode_step. rewrite Hcounts.
  assert (∀ v, default 0%nat (<[String_ x := (occ String_ (String_ x) p + 1)%nat]> counts !! v)
               = occ String_ v (p ++ [x])) as Hcounts'.
  { intros v. destruct (decide (String_ x = v)) as [<-|Hv].
    - rewrite lookup_insert_eq, occ_snoc_same by done. cbn. lia.
    - rewrite lookup_insert_ne, occ_snoc_other by done. apply Hcounts. }
  destruct (maxCount <? occ String_ (String_ x) p + 1)%nat eqn:Hlt.
  - apply Nat.ltb_lt in Hlt. split; [done|]. split.
    + intros v. destruct (decide (String_ x = v)) as [<-|Hv].
      * rewrite occ_snoc_same by done. lia.
      * rewrite occ_snoc_other by done. specialize (Hmax v). lia.
    + right. exists p, []. split; [done|]. split.
      * rewrite occ_snoc_same by done. lia.
      * intros v. specialize (Hmax v). lia.
  - apply Nat.ltb_ge in Hlt. split; [done|]. split.
    + intros v. destruct (decide (String_ x = v)) as [<-|Hv].
      * rewrite occ_snoc_same by done. lia.
      * rewrite occ_snoc_other by done. apply Hmax.
    + right. destruct Hmode as [[-> ->]|(pre & post & -> & Hreach & Hbefore)].
      * cbn in Hlt. unfold occ in Hlt. cbn in Hlt. lia.
      * exists pre, (post ++ [x]). split; [|done].
        by rewrite <-app_assoc.
Qed.

Lemma modeInv_foldl rest p st :
  modeInv String_ p st → modeInv String_ (p ++ rest) (foldl (getMode_step String_) st rest).
Proof.
  revert p st. induction rest as [|x rest IH]; intros p st Hinv.
  - by rewrite app_nil_r.
  - cbn. rewrite cons_middle, app_assoc. apply IH. by apply modeInv_step.
Qed.

Lemma getMode_spec (arr : list A) :
  arr ≠ [] → ∃ m, getMode String_ arr = Some m ∧ firstToReachMax arr m.
Proof.
  intros Harr. destruct arr as [|first arr']; [done|].
  pose proof (modeInv_foldl (first :: arr') [] (∅, 0%nat, first)) as Hinv.
  change (getMode String_ (first :: arr'))
    with (Some (foldl (getMode_step String_) (∅, 0%nat, first)
                      (first :: arr')).2).
  destruct (foldl (getMode_step String_) (∅, 0%nat, first) (first :: arr'))
    as [[counts maxCount] mode] eqn:Hfold.
  exists mode. split; [done|].
  destruct Hinv as (_ & Hmax & Hmode).
  { split; [|split]; [done|intros v; cbn; lia|by left]. }
  cbn [app] in Hmax, Hmode.
  destruct Hmode as [[? _]|(pre & post & Hsplit & Hreach & Hbefore)]; [done|].
  exists pre, post. split; [done|]. rewrite <-occ_occurrences, Hreach. split.
  - intros y. rewrite <-occ_occurrences. apply Hmax.
  - intros y. rewrite <-occ_occurrences. apply Hbefore.
Qed.
End getMode_loop.

#[global] Instance String_undef_ShadowIntensity_inj :
  Inj (=) (=) (String_undef ShadowIntensity_str).
Proof. intros [[]|] [[]|] H; try discriminate H; reflexivity. Qed.

#[global] Instance String_undef_MaterialType_inj :
  Inj (=) (=) (String_undef MaterialType_str).
Proof. intros [[]|] [[]|] H; try discriminate H; reflexivity. Qed.

Lemma firstToReachMax_most_frequent {A} `{EqDecision A} (l : list A) (m : A) :
  firstToReachMax l m → ∀ y, (occurrences y l ≤ occurrences m l)%nat.
Proof.
  intros (pre & post & -> & Hmax & _) y. etrans; [apply Hmax|].
  unfold occurrences. rewrite (cons_middle m pre post), app_assoc.
  rewrite (filter_app _ (pre ++ [m]) post), length_app. lia.
Qed.

(** C8, as the code has it.  [computeProfile] keeps the records rated 4 or
    more.  Without any, for an absent, an empty or an all-below-threshold
    log, the profile is empty and so is the memory context.  Otherwise the
    preferred shadow intensity, material and angle bucket are each a most
    frequent value of the kept records, and among the most frequent values
    the one whose count is the first to reach the maximum in log order;
    the two flags are strict majorities (a tie gives [false]).  For the
    log [{soft,4},{soft,5},{hard,3}] the preferred shadow intensity is
    [soft]. *)
Theorem computeProfile_modes (ratings : list RatingRecord.t) :
  match List.filter isPositiveExample ratings with
  | [] => computeProfile ratings = None
          ∧ getAiMemoryContext (Some ratings) = EmptyString
  | first :: others =>
      let positive := first :: others in
      ∃ p, computeProfile ratings = Some p
        ∧ getAiMemoryContext (Some ratings) = renderProfile p
        ∧ sampleCount p = length positive
        ∧ (∃ m, preferredShadow p = Some m
             ∧ firstToReachMax (RatingRecord.shadowIntensity <$> positive) m
             ∧ ∀ y, (occurrences y (RatingRecord.shadowIntensity <$> positive)
                     ≤ occurrences m (RatingRecord.shadowIntensity <$> positive))%nat)
        ∧ (∃ m, preferredMaterial p = Some m
             ∧ firstToReachMax (RatingRecord.materialType <$> positive) m
             ∧ ∀ y, (occurrences y (RatingRecord.materialType <$> positive)
                     ≤ occurrences m (RatingRecord.materialType <$> positive))%nat)
        ∧ (∃ m, preferredAngle p = Some m
             ∧ firstToReachMax (bucketOf <$> positive) m
             ∧ ∀ y, (occurrences y (bucketOf <$> positive)
                     ≤ occurrences m (bucketOf <$> positive))%nat)
        ∧ likesEnhanced p
          = bool_decide (length positive
                         < 2 * length (List.filter isEnhanced positive))%nat
        ∧ prefersFloating p
          = bool_decide (length positive
                         < 2 * length (List.filter isFloating positive))%nat
  end
  ∧ getAiMemoryContext None = EmptyString
  ∧ preferredShadow
      <$> computeProfile [sampleRating soft true 4; sampleRating soft true 5;
                          sampleRating hard true 3]
    = Some (Some (Some soft)).
Proof.
  split; [|split; [reflexivity|vm_compute; reflexivity]].
  unfold getAiMemoryContext, computeProfile.
  destruct (List.filter isPositiveExample ratings) as [|first others] eqn:Hpos.
  - done.
  - set (positive := first :: others).
    rewrite bool_decide_eq_false_2 by done.
    eexists. split; [reflexivity|]. split; [reflexivity|].
    split; [reflexivity|]. cbn [preferredShadow preferredMaterial
      preferredAngle likesEnhanced prefersFloating].
    split; [|split; [|split; [|split]]].
    + destruct (getMode_spec (String_undef ShadowIntensity_str)
                  (RatingRecord.shadowIntensity <$> positive)) as (m & Hm & Hfirst);
        [done|].
      exists m. eauto using firstToReachMax_most_frequent.
    + destruct (getMode_spec (String_undef MaterialType_str)
                  (RatingRecord.materialType <$> positive)) as (m & Hm & Hfirst);
        [done|].
      exists m. eauto using firstToReachMax_most_frequent.
    + destruct (getMode_spec pretty (bucketOf <$> positive))
        as (m & Hm & Hfirst); [done|].
      exists m. eauto using firstToReachMax_most_frequent.
    + unfold moreThanHalf. apply eq_true_iff_eq.
      rewrite Nat.ltb_lt, bool_decide_eq_true. done.
    + unfold moreThanHalf. apply eq_true_iff_eq.
      rewrite Nat.ltb_lt, bool_decide_eq_true. done.
Qed.

(** C8, as the claim has it, fails on ties.  In the log
    [{soft,4},{hard,4},{hard,5},{soft,5}] both intensities occur twice and
    [soft] occurs first, yet [hard], whose second occurrence comes first,
    is preferred; and with one record for enhanced lighting followed by
    one against it, the flag is [false] although [true] occurs first. *)
Lemma first_occurrence_does_not_break_ties :
  let shadows := [Some soft; Some hard; Some hard; Some soft] in
  preferredShadow
    <$> computeProfile [sampleRating soft true 4; sampleRating hard true 4;
                        sampleRating hard true 5; sampleRating soft true 5]
  = Some (Some (Some hard))
  ∧ RatingRecord.shadowIntensity
      <$> List.filter isPositiveExample
            [sampleRating soft true 4; sampleRating hard true 4;
             sampleRating hard true 5; sampleRating soft true 5]
    = shadows
  ∧ occurrences (Some soft) shadows = occurrences (Some hard) shadows
  ∧ modeByFirstOccurrence shadows (Some soft)
  ∧ ¬ modeByFirstOccurrence shadows (Some hard)
  ∧ likesEnhanced
      <$> computeProfile [sampleRating soft true 4; sampleRating soft false 4]
    = Some false.
Proof.
  intros shadows.
  split; [vm_compute; reflexivity|]. split; [vm_compute; reflexivity|].
  split; [vm_compute; reflexivity|]. split; [|split].
  - split; [left|]. split.
    + intros [[]|]; vm_compute; lia.
    + intros y n _ Hn. exists 0%nat. split; [lia|done].
  - intros (_ & _ & Hfirst).
    destruct (Hfirst (Some soft) 0%nat) as (k & Hk & Hhard);
      [vm_compute; reflexivity|done|].
    assert (k = 0%nat) as -> by lia. discriminate Hhard.
  - vm_compute. reflexivity.
Qed.

(** ** The classes of failure *)

Lemma handle_now_mono ev s s' : handle ev s = Some s' → now s ≤ now s'.
Proof.
  destruct ev; cbn; intros H; try (injection H as <-; cbn; lia).
  - destruct (0 <=? d) eqn:Hd; [|done]. injection H as <-. cbn. lia.
  - case_decide; [|done]. injection H as <-. unfold processUploadedFiles.
    case_bool_decide; [cbn; lia|]. cbn [history setError].
    destruct (MAX_QUEUE_SIZE <? _); cbn; lia.
  - injection H as <-. unfold handleRate.
    destruct (list_find _ _) as [[? ?]|]; cbn; lia.
  - injection H as <-. unfold queueEffect.
    destruct (isQueueRunning s); [|cbn; lia]. cbn.
    destruct (truthy_id _); [lia|].
    destruct (nextItem _); [|cbn; lia].
    unfold processQueueItem. destruct (hasImageData _); [cbn; lia|].
    unfold catchBlock. destruct missingImageData_generic as [-> ->]. cbn. lia.
  - unfold throttleDone in H.
    destruct (tasks s !! k) as [[item [wake|req|wake]]|]; try done.
    destruct (wake <=? now s); [|done]. injection H as <-. cbn. lia.
  - unfold callSettled in H.
    destruct (tasks s !! k) as [[item [wake|req|wake]]|]; try done.
    destruct outcome as [result|err]; [injection H as <-; cbn; lia|].
    unfold catchBlock in H. destruct (isAuthError err); [injection H as <-; cbn; lia|].
    destruct (isRateLimit err); injection H as <-; cbn; lia.
  - unfold cooldownDone in H.
    destruct (tasks s !! k) as [[item [wake|req|wake]]|]; try done.
    destruct (wake <=? now s); [|done]. injection H as <-. cbn. lia.
Qed.

Lemma run_now_mono evs s s' : run evs s = Some s' → now s ≤ now s'.
Proof.
  revert s. induction evs as [|ev evs IH]; intros s H; cbn in H.
  - injection H as <-. lia.
  - destruct (handle ev s) as [s1|] eqn:Hev; [|done]. cbn in H.
    apply handle_now_mono in Hev. apply IH in H. lia.
Qed.

(** *** The lock during the cooldown *)

Lemma cooldown_step ev s s' item w :
  Inv s →
  tasks s = [{| task_item := item; task_phase := Cooldown w |}] →
  handle ev s = Some s' →
  now s < w →
  tasks s' = [{| task_item := item; task_phase := Cooldown w |}].
Proof.
  intros HI Htasks H Hnow.
  assert (truthy_id (processingId s) = true) as Hlock.
  { destruct HI as (_ & _ & Hl). unfold lockConsistent in Hl.
    rewrite Htasks in Hl. destruct Hl as (-> & Ht & _). cbn.
    by apply truthy_str_true. }
  destruct ev; cbn in H; try (injection H as <-; done).
  - destruct (0 <=? d); [|done]. by injection H as <-.
  - case_decide; [|done]. injection H as <-. unfold processUploadedFiles.
    case_bool_decide; [done|]. cbn [history setError].
    by destruct (MAX_QUEUE_SIZE <? _).
  - injection H as <-. unfold handleRate.
    by destruct (list_find _ _) as [[? ?]|].
  - injection H as <-. unfold queueEffect.
    destruct (isQueueRunning s); [|done]. cbn. by rewrite Hlock.
  - unfold throttleDone in H. rewrite Htasks in H. by destruct k as [|[|k]].
  - unfold callSettled in H. rewrite Htasks in H. by destruct k as [|[|k]].
  - unfold cooldownDone in H. rewrite Htasks in H.
    destruct k as [|[|k]]; try done. cbn in H.
    destruct (w <=? now s) eqn:Hw; [|done]. apply Z.leb_le in Hw. lia.
Qed.

Lemma cooldown_run evs s s' item w :
  Inv s →
  tasks s = [{| task_item := item; task_phase := Cooldown w |}] →
  run evs s = Some s' →
  now s' < w →
  Inv s' ∧ tasks s' = [{| task_item := item; task_phase := Cooldown w |}].
Proof.
  revert s. induction evs as [|ev evs IH]; intros s HI Htasks H Hnow; cbn in H.
  - by injection H as <-.
  - destruct (handle ev s) as [s1|] eqn:Hev; [|done]. cbn in H.
    pose proof (run_now_mono _ _ _ H) as Hmono1.
    pose proof (handle_now_mono _ _ _ Hev) as Hmono.
    apply (IH s1); [by eapply Inv_handle| |done|done].
    eapply cooldown_step; [done..|lia].
Qed.

(** *** A failed job stays failed until the user resubmits it *)

Lemma ids_app h1 h2 : ids (h1 ++ h2) = ids h1 ++ ids h2.
Proof. unfold ids. apply fmap_app. Qed.

Lemma failedForGood_ext x s s' :
  history s' = history s → tasks s' = tasks s →
  failedForGood x s → failedForGood x s'.
Proof. unfold failedForGood. by intros -> ->. Qed.

(** An update of the jobs of another id. *)
Lemma failedForGood_mapById x y f s :
  (∀ i, HistoryItem.id (f i) = HistoryItem.id i) →
  (y ≠ x ∨ ∀ i, HistoryItem.status i = failed → HistoryItem.status (f i) = failed) →
  failedForGood x s → failedForGood x (setHistory (mapById y f) s).
Proof.
  intros Hid Hy (Hin & Hfailed & Htasks). unfold failedForGood. cbn.
  rewrite ids_mapById by done. split; [done|]. split; [|done].
  intros j' (j & Hj & ->)%elem_of_mapById. case_decide as Hjy.
  - rewrite Hid. intros Hx. destruct Hy as [Hy|Hy]; [congruence|].
    apply Hy. by apply Hfailed.
  - by apply Hfailed.
Qed.

Lemma failedForGood_handle x ev s s' :
  keepsJob x ev → handle ev s = Some s' →
  failedForGood x s → failedForGood x s'.
Proof.
  intros [Hregen Hclear] H HF. destruct ev; cbn in H;
    try (injection H as <-; by eapply failedForGood_ext; [..|exact HF]).
  - destruct (0 <=? d); [|done]. injection H as <-.
    by eapply failedForGood_ext; [..|exact HF].
  - case_decide as Hfresh; [|done]. injection H as <-.
    unfold processUploadedFiles.
    case_bool_decide; [by eapply failedForGood_ext; [..|exact HF]|].
    cbn [history setError].
    destruct (MAX_QUEUE_SIZE <? _); [by eapply failedForGood_ext; [..|exact HF]|].
    destruct HF as (Hin & Hfailed & Htasks). unfold failedForGood. cbn.
    unfold freshIds in Hfresh. apply NoDup_app in Hfresh as (_ & Hdisj & _).
    rewrite ids_app. split; [apply elem_of_app; by right|]. split; [|done].
    intros j [Hj|Hj]%elem_of_app Hx; [|by apply Hfailed].
    exfalso. apply (Hdisj x); [|done]. rewrite <-Hx. by apply elem_of_ids.
  - injection H as <-. unfold handleRegenerate.
    apply failedForGood_mapById; [done| |done]. left. congruence.
  - injection H as <-. unfold handleRate.
    assert (failedForGood x (setHistory (mapById target (with_rating r)) s)) as HF'.
    { apply failedForGood_mapById; [done| |done]. by right. }
    destruct (list_find _ _) as [[? ?]|]; [|done].
    by eapply failedForGood_ext; [..|exact HF'].
  - injection H as <-. unfold queueEffect.
    destruct (isQueueRunning s); [|done]. cbn.
    destruct (truthy_id _); [done|].
    destruct (nextItem (history s)) as [item|] eqn:Hnext;
      [|by eapply failedForGood_ext; [..|exact HF]].
    apply nextItem_elem_of in Hnext as [Hitem Hq].
    assert (HistoryItem.id item ≠ x) as Hne.
    { intros Hx. destruct HF as (_ & Hfailed & _).
      rewrite (Hfailed item Hitem Hx) in Hq. done. }
    unfold processQueueItem. destruct (hasImageData item).
    + assert (failedForGood x
                (setHistory (mapById (HistoryItem.id item) with_generating)
                            (setProcessingId (Some (HistoryItem.id item)) s)))
        as (Hin & Hfailed & Htasks).
      { apply failedForGood_mapById; [done|by left|].
        by eapply failedForGood_ext; [..|exact HF]. }
      split; [done|]. split; [done|]. cbn.
      intros t [Ht|Ht]%elem_of_app; [by apply Htasks|].
      apply list_elem_of_singleton in Ht as ->. cbn. done.
    + unfold catchBlock. destruct missingImageData_generic as [-> ->].
      eapply failedForGood_ext; [reflexivity..|].
      apply failedForGood_mapById; [done|by left|].
      apply failedForGood_mapById; [done|by left|].
      by eapply failedForGood_ext; [..|exact HF].
  - unfold throttleDone in H.
    destruct (tasks s !! k) as [[item [wake|req|wake]]|] eqn:Hk; try done.
    destruct (wake <=? now s); [|done]. injection H as <-.
    destruct HF as (Hin & Hfailed & Htasks).
    split; [done|]. split; [done|]. cbn.
    intros t Ht Hx. apply list_elem_of_lookup_1 in Ht as [n Hn].
    apply list_lookup_insert_Some in Hn as [(-> & <- & _)|[Hnk Hn]].
    + cbn in Hx. destruct (Htasks _ (list_elem_of_lookup_2 _ _ _ Hk) Hx) as [? ?].
      done.
    + apply (Htasks t); [by eapply list_elem_of_lookup_2|done].
  - unfold callSettled in H.
    destruct (tasks s !! k) as [[item [wake|req|wake]]|] eqn:Hk; try done.
    assert (HistoryItem.id item ≠ x) as Hne.
    { intros Hx. destruct HF as (_ & _ & Htasks).
      destruct (Htasks _ (list_elem_of_lookup_2 _ _ _ Hk) Hx) as [? ?]. done. }
    assert (∀ f l, (∀ i, HistoryItem.id (f i) = HistoryItem.id i) →
              (∀ t, t ∈ l → t ∈ tasks s) →
              failedForGood x
                (setTasks (λ _, l)
                   (setHistory (mapById (HistoryItem.id item) f) s))) as Hgen.
    { intros f l Hf Hl.
      destruct (failedForGood_mapById x (HistoryItem.id item) f s Hf
                  (or_introl Hne) HF) as (Hin & Hfailed & Htasks).
      split; [done|]. split; [done|]. cbn. intros t Ht. apply Htasks.
      cbn. by apply Hl. }
    assert (∀ t, t ∈ delete k (tasks s) → t ∈ tasks s) as Hdel.
    { intros t Ht. by eapply list_elem_of_delete_inv. }
    destruct outcome as [result|err].
    + injection H as <-.
      eapply failedForGood_ext; [reflexivity..|].
      by apply (Hgen (with_completed _) (delete k (tasks s))).
    + unfold catchBlock in H. destruct (isAuthError err).
      * injection H as <-. eapply failedForGood_ext; [reflexivity..|].
        by apply (Hgen with_failed (delete k (tasks s))).
      * destruct (isRateLimit err); injection H as <-.
        -- destruct (failedForGood_mapById x (HistoryItem.id item) with_failed
                       s id_with_failed (or_introl Hne) HF)
             as (Hin & Hfailed & Htasks).
           split; [done|]. split; [done|]. cbn.
           intros t Ht Hx. apply list_elem_of_lookup_1 in Ht as [n Hn].
           apply list_lookup_insert_Some in Hn as [(-> & <- & _)|[Hnk Hn]].
           ++ by eexists.
           ++ apply (Htasks t); [by eapply list_elem_of_lookup_2|done].
        -- eapply failedForGood_ext; [reflexivity..|].
           by apply (Hgen with_failed (delete k (tasks s))).
  - unfold cooldownDone in H.
    destruct (tasks s !! k) as [[item [wake|req|wake]]|] eqn:Hk; try done.
    destruct (wake <=? now s); [|done]. injection H as <-.
    destruct HF as (Hin & Hfailed & Htasks).
    split; [done|]. split; [done|]. cbn. intros t Ht. apply Htasks.
    by eapply list_elem_of_delete_inv.
Qed.

Lemma failedForGood_run x evs s s' :
  Forall (keepsJob x) evs → run evs s = Some s' →
  failedForGood x s → failedForGood x s'.
Proof.
  revert s. induction evs as [|ev evs IH]; intros s Hevs H HF; cbn in H.
  - by injection H as <-.
  - destruct (handle ev s) as [s1|] eqn:Hev; [|done]. cbn in H.
    apply Forall_cons in Hevs as [Hev1 Hevs].
    eapply IH; [done..|]. by eapply failedForGood_handle.
Qed.

Lemma classify_RateLimited err :
  classify err = RateLimited → isAuthError err = false ∧ isRateLimit err = true.
Proof.
  unfold classify. destruct (isAuthError err); [done|].
  by destruct (isRateLimit err).
Qed.

Lemma classify_CredentialExpired err :
  classify err = CredentialExpired ↔ isAuthError err = true.
Proof.
  unfold classify. destruct (isAuthError err); [done|].
  by destruct (isRateLimit err).
Qed.

Lemma queueEffect_locked s :
  truthy_id (processingId s) = true → queueEffect s = s.
Proof.
  intros Hlock. unfold queueEffect. destruct (isQueueRunning s); [|done].
  cbn. by rewrite Hlock.
Qed.

Lemma queueEffect_paused s : isQueueRunning s = false → queueEffect s = s.
Proof. intros Hp. unfold queueEffect. by rewrite Hp. Qed.

(** C4.  When the external call fails with an error of the rate-limit
    class (a message with "429" or "quota", or status 429, in the branch
    the [catch] block takes for it), the job is marked [failed] and its
    image data dropped, and the activation keeps the lock through its
    cooldown: in whatever way the run goes on, for 10000 ms the lock is
    held and the queue effect dispatches nothing.  While the user neither
    resubmits the job nor clears the store, the job stays [failed]: the
    controller does not retry it.  Once the 10000 ms are over the lock can
    be released. *)
Theorem rate_limit_fails_job_and_cools_down
    (s : State) (k : nat) (item : HistoryItem.t)
    (req : geminiService.Request) (err : JsError) :
  reachable s →
  tasks s !! k = Some {| task_item := item; task_phase := Calling req |} →
  classify err = RateLimited →
  ∃ s1, callSettled k (inr err) s = Some s1
    ∧ history s1 = mapById (HistoryItem.id item) with_failed (history s)
    ∧ (∀ j, j ∈ history s1 → HistoryItem.id j = HistoryItem.id item →
         HistoryItem.status j = failed ∧ HistoryItem.base64Data j = None)
    ∧ processingId s1 = Some (HistoryItem.id item)
    ∧ tasks s1 = [{| task_item := item;
                     task_phase := Cooldown (now s + 10000) |}]
    ∧ (∀ evs s2, run evs s1 = Some s2 → now s2 < now s + 10000 →
         truthy_id (processingId s2) = true ∧ queueEffect s2 = s2)
    ∧ (∀ evs s2, run evs s1 = Some s2 →
         Forall (keepsJob (HistoryItem.id item)) evs →
         HistoryItem.id item ∈ ids (history s1) →
         ∀ j, j ∈ history s2 → HistoryItem.id j = HistoryItem.id item →
              HistoryItem.status j = failed)
    ∧ (∀ d, 10000 ≤ d →
         ∃ s3, run [EvTick d; EvCooldownDone 0] s1 = Some s3
               ∧ processingId s3 = None).
Proof.
  intros HI%Inv_reachable Hk [Hauth Hrate]%classify_RateLimited.
  destruct (Inv_single_task _ _ _ HI Hk) as [Htasks ->].
  destruct (callSettled 0 (inr err) s) as [s1|] eqn:Hs1; cycle 1.
  { unfold callSettled, catchBlock in Hs1.
    rewrite Hk, Hauth, Hrate in Hs1. done. }
  pose proof (Inv_callSettled _ _ _ _ HI Hs1) as HI1.
  unfold callSettled, catchBlock in Hs1. rewrite Hk, Hauth, Hrate in Hs1.
  injection Hs1 as <-. eexists. split; [reflexivity|].
  cbn [history tasks processingId now setTasks setHistory]. rewrite Htasks.
  change (<[0%nat := ?t]> [?u]) with [t].
  assert (∀ j, j ∈ mapById (HistoryItem.id item) with_failed (history s) →
            HistoryItem.id j = HistoryItem.id item →
            HistoryItem.status j = failed ∧ HistoryItem.base64Data j = None)
    as Hfailed.
  { intros j' (j & Hj & ->)%elem_of_mapById. case_decide; [done|].
    intros Hid. done. }
  split; [done|]. split; [done|]. split.
  { destruct HI as (_ & _ & Hl). unfold lockConsistent in Hl.
    rewrite Htasks in Hl. by destruct Hl as (-> & _). }
  split; [done|]. split; [|split].
  - intros evs s2 Hrun Hnow.
    destruct (cooldown_run evs _ s2 item (now s + 10000) HI1) as [HI2 Ht2];
      [by cbn; rewrite Htasks|done|done|].
    assert (truthy_id (processingId s2) = true) as Hlock.
    { destruct HI2 as (_ & _ & Hl). unfold lockConsistent in Hl.
      rewrite Ht2 in Hl. destruct Hl as (-> & Ht & _). cbn.
      by apply truthy_str_true. }
    split; [done|]. by apply queueEffect_locked.
  - intros evs s2 Hrun Hevs Hin.
    eapply (failedForGood_run (HistoryItem.id item) evs) in Hrun as (_ & Hf & _);
      [done|done|].
    split; [done|]. split.
    + intros j Hj Hid. by apply Hfailed.
    + cbn. rewrite Htasks. intros t Ht _.
      change (<[0%nat := ?t]> [?u]) with [t] in Ht.
      apply list_elem_of_singleton in Ht as ->. by eexists.
  - intros d Hd. cbn. rewrite (proj2 (Z.leb_le 0 d)) by lia. cbn.
    unfold cooldownDone. cbn. rewrite Htasks. cbn.
    rewrite (proj2 (Z.leb_le _ _)) by lia. eexists. done.
Qed.

Lemma rate_limit_fails_job_and_cools_down_witness :
  ∃ s1, callSettled 0 (inr quotaError) callPending = Some s1
    ∧ HistoryItem.status <$> history s1 = [failed; queued]
    ∧ processingId s1 = Some "1700000000000k3j9x0q1z".
Proof.
  destruct (rate_limit_fails_job_and_cools_down callPending 0 callPendingItem
              callPendingRequest quotaError) as (s1 & Hs1 & Hh & _ & Hp & _).
  - exists None, 1700000000000, callPendingEvents. vm_compute. reflexivity.
  - vm_compute. reflexivity.
  - vm_compute. reflexivity.
  - exists s1. split; [exact Hs1|]. split; [|exact Hp].
    rewrite Hh. vm_compute. reflexivity.
Defined.

(** ** The expired credential *)

Lemma paused_handle ev s s' :
  ev ≠ EvStart → handle ev s = Some s' →
  isQueueRunning s = false → isQueueRunning s' = false.
Proof.
  intros Hev H Hp. destruct ev; cbn in H; try done;
    try (injection H as <-; done).
  - destruct (0 <=? d); [|done]. by injection H as <-.
  - case_decide; [|done]. injection H as <-. unfold processUploadedFiles.
    case_bool_decide; [done|]. cbn [history setError].
    by destruct (MAX_QUEUE_SIZE <? _).
  - injection H as <-. unfold handleRate.
    by destruct (list_find _ _) as [[? ?]|].
  - injection H as <-. by rewrite queueEffect_paused.
  - unfold throttleDone in H.
    destruct (tasks s !! k) as [[item [wake|req|wake]]|]; try done.
    destruct (wake <=? now s); [|done]. by injection H as <-.
  - unfold callSettled in H.
    destruct (tasks s !! k) as [[item [wake|req|wake]]|]; try done.
    destruct outcome as [result|err]; [by injection H as <-|].
    unfold catchBlock in H. destruct (isAuthError err); [by injection H as <-|].
    by destruct (isRateLimit err); injection H as <-.
  - unfold cooldownDone in H.
    destruct (tasks s !! k) as [[item [wake|req|wake]]|]; try done.
    destruct (wake <=? now s); [|done]. by injection H as <-.
Qed.

Lemma paused_run evs s s' :
  EvStart ∉ evs → run evs s = Some s' →
  isQueueRunning s = false → isQueueRunning s' = false.
Proof.
  revert s. induction evs as [|ev evs IH]; intros s Hevs H Hp; cbn in H.
  - by injection H as <-.
  - destruct (handle ev s) as [s1|] eqn:Hev; [|done]. cbn in H.
    apply not_elem_of_cons in Hevs as [Hne Hevs].
    eapply IH; [done..|]. eapply paused_handle; [|done..]. congruence.
Qed.

(** C5, as the code has it.  When the external call fails with an error
    of the credential class, the job is marked [failed], the credential
    flag is cleared, the session message is put in [error], the run flag
    is switched off and the lock released; the other jobs, queued ones
    included, are left as they are.  From then on the queue effect
    dispatches nothing for as long as the Start control is not used: the
    run flag is all that [queueEffect] asks for, the credential flag it
    does not read. *)
Theorem credential_expired_pauses_queue
    (s : State) (k : nat) (item : HistoryItem.t)
    (req : geminiService.Request) (err : JsError) :
  tasks s !! k = Some {| task_item := item; task_phase := Calling req |} →
  classify err = CredentialExpired →
  ∃ s1, callSettled k (inr err) s = Some s1
    ∧ hasKey s1 = false
    ∧ error s1 = Some sessionExpiredMessage
    ∧ isQueueRunning s1 = false
    ∧ processingId s1 = None
    ∧ history s1 = mapById (HistoryItem.id item) with_failed (history s)
    ∧ (∀ n j, history s !! n = Some j →
         HistoryItem.id j ≠ HistoryItem.id item → history s1 !! n = Some j)
    ∧ queueEffect s1 = s1
    ∧ (∀ evs s2, run evs s1 = Some s2 → EvStart ∉ evs →
         isQueueRunning s2 = false ∧ queueEffect s2 = s2).
Proof.
  intros Hk Hauth%classify_CredentialExpired.
  unfold callSettled, catchBlock. rewrite Hk, Hauth.
  eexists. split; [reflexivity|]. cbn.
  do 5 (split; [reflexivity|]). split; [|split].
  - intros n j Hn Hid. rewrite lookup_mapById, Hn. cbn. by rewrite decide_False.
  - reflexivity.
  - intros evs s2 Hrun Hevs.
    assert (isQueueRunning s2 = false) as Hp.
    { eapply (paused_run evs); [exact Hevs|exact Hrun|reflexivity]. }
    split; [done|]. by apply queueEffect_paused.
Qed.

Lemma credential_expired_pauses_queue_witness :
  ∃ s1, callSettled 0 (inr notFoundError) callPending = Some s1
    ∧ hasKey s1 = false ∧ isQueueRunning s1 = false
    ∧ HistoryItem.status <$> history s1 = [failed; queued].
Proof.
  destruct (credential_expired_pauses_queue callPending 0 callPendingItem
              callPendingRequest notFoundError)
    as (s1 & Hs1 & Hkey & _ & Hrun & _ & Hh & _).
  - vm_compute. reflexivity.
  - vm_compute. reflexivity.
  - exists s1. split; [exact Hs1|]. split; [exact Hkey|]. split; [exact Hrun|].
    rewrite Hh. vm_compute. reflexivity.
Defined.

(** C5, as the claim has it, fails in its last part: after the credential
    error one job is still queued, and using the Start control lets the
    queue effect dispatch it while the credential flag is still cleared,
    no key having been selected. *)
Lemma dispatch_without_credential :
  reachable credentialExpired
  ∧ hasKey credentialExpired = false
  ∧ HistoryItem.status <$> history credentialExpired = [failed; queued]
  ∧ (∃ s2, run [EvStart; EvQueueEffect] credentialExpired = Some s2
       ∧ hasKey s2 = false
       ∧ HistoryItem.status <$> history s2 = [failed; generating]
       ∧ processingId s2 = Some "1700000000000p7m2c5v8w")
  ∧ ¬ (∀ evs s2, run evs credentialExpired = Some s2 →
         (∀ ev, ev ∈ evs → ¬ isKeyEvent ev) →
         ∀ j, j ∈ history s2 → HistoryItem.status j ≠ generating).
Proof.
  split.
  { exists None, 1700000000000,
      (callPendingEvents ++ [EvCallSettled 0 (inr notFoundError)]).
    vm_compute. reflexivity. }
  split; [vm_compute; reflexivity|]. split; [vm_compute; reflexivity|].
  destruct (run [EvStart; EvQueueEffect] credentialExpired) as [s2|] eqn:Hs2;
    [|vm_compute in Hs2; discriminate].
  split.
  { exists s2. split; [done|]. vm_compute in Hs2. injection Hs2 as <-.
    repeat split; vm_compute; reflexivity. }
  intros Hclaim.
  destruct (history s2 !! 1%nat) as [j|] eqn:Hj; cycle 1.
  { vm_compute in Hs2. injection Hs2 as <-. vm_compute in Hj. discriminate. }
  apply (Hclaim [EvStart; EvQueueEffect] s2 Hs2) with (j := j).
  - intros ev Hev [->|[selected ->]];
      repeat (apply elem_of_cons in Hev as [Hev|Hev]; [discriminate Hev|]);
      by apply elem_of_nil in Hev.
  - by eapply list_elem_of_lookup_2.
  - vm_compute in Hs2. injection Hs2 as <-. vm_compute in Hj.
    injection Hj as <-. reflexivity.
Qed.


(** * Further properties of the code *)

(** ** What an event does to the store *)

Lemma mapById_absent target f h : target ∉ ids h → mapById target f h = h.
Proof.
  intros Hx. unfold mapById. rewrite <-(list_fmap_id h) at 2.
  apply list_fmap_ext. intros n i Hn. cbn. rewrite decide_False; [done|].
  intros <-. apply Hx. apply elem_of_ids. by eapply list_elem_of_lookup_2.
Qed.

Lemma history_processQueueItem item s :
  history (processQueueItem item s)
  = mapById (HistoryItem.id item)
      (if hasImageData item then with_generating
       else with_failed ∘ with_generating) (history s).
Proof.
  unfold processQueueItem. destruct (hasImageData item); [done|].
  unfold catchBlock. destruct missingImageData_generic as [-> ->]. cbn.
  by rewrite mapById_mapById.
Qed.

Lemma history_handle ev s s' :
  handle ev s = Some s' →
  history s' = history s
  ∨ (∃ target f, spreadOf s ev target f
       ∧ history s' = mapById target f (history s))
  ∨ (∃ fileList, ev = EvUpload fileList
       ∧ history s'
         = omap (newItem (settings s) (now s)) (List.filter isValidFile fileList)
           ++ history s)
  ∨ (ev = EvClear ∧ history s' = []).
Proof.
  intros H. destruct ev; cbn in H;
    try (injection H as <-; by left).
  - destruct (0 <=? d); [|done]. injection H as <-. by left.
  - case_decide; [|done]. injection H as <-. unfold processUploadedFiles.
    case_bool_decide; [by left|]. cbn [history setError].
    destruct (MAX_QUEUE_SIZE <? _); [by left|].
    right. right. left. by exists fileList.
  - injection H as <-. right. left. by eexists _, _.
  - injection H as <-. right. left.
    exists target, (with_rating r). split; [done|]. unfold handleRate.
    by destruct (list_find _ _) as [[? ?]|].
  - injection H as <-. by repeat right.
  - injection H as <-. unfold queueEffect.
    destruct (isQueueRunning s); [|by left]. cbn.
    destruct (truthy_id (processingId s)); [by left|].
    destruct (nextItem (history s)) as [item|] eqn:Hnext; [|by left].
    right. left. eexists _, _. split; [by exists item|].
    apply history_processQueueItem.
  - unfold throttleDone in H.
    destruct (tasks s !! k) as [[item [wake|req|wake]]|]; try done.
    destruct (wake <=? now s); [|done]. injection H as <-. by left.
  - unfold callSettled in H.
    destruct (tasks s !! k) as [[item [wake|req|wake]]|] eqn:Hk; try done.
    right. left. eexists _, _. split; [by exists item, req|].
    destruct outcome as [result|err]; [by injection H as <-|].
    unfold catchBlock in H. destruct (isAuthError err); [by injection H as <-|].
    by destruct (isRateLimit err); injection H as <-.
  - unfold cooldownDone in H.
    destruct (tasks s !! k) as [[item [wake|req|wake]]|]; try done.
    destruct (wake <=? now s); [|done]. injection H as <-. by left.
Qed.

(** Every spread keeps the id of the job. *)
Lemma spreadOf_id s ev target f :
  spreadOf s ev target f → ∀ i, HistoryItem.id (f i) = HistoryItem.id i.
Proof.
  destruct ev; cbn; try done.
  - by intros [_ ->].
  - by intros [_ ->].
  - intros (item & _ & _ & ->). by destruct (hasImageData item).
  - intros (item & req & _ & _ & ->). by destruct outcome.
Qed.

(** Every spread but the one of a resubmission keeps what the job was
    submitted with. *)
Lemma spreadOf_frozen s ev target f :
  spreadOf s ev target f → ev ≠ EvRegenerate target →
  ∀ i, snapshotOf (f i) = snapshotOf i
       ∧ HistoryItem.originalImage (f i) = HistoryItem.originalImage i
       ∧ HistoryItem.originalFilename (f i) = HistoryItem.originalFilename i
       ∧ HistoryItem.mimeType (f i) = HistoryItem.mimeType i
       ∧ HistoryItem.timestamp (f i) = HistoryItem.timestamp i.
Proof.
  destruct ev; cbn; try done.
  - intros [-> _]. done.
  - by intros [_ ->].
  - intros (item & _ & _ & ->). by destruct (hasImageData item).
  - intros (item & req & _ & _ & ->). by destruct outcome.
Qed.

(** ** The order of the store *)

(** X1.  Whatever happens to the component, as long as the store is not
    cleared its jobs are neither removed nor reordered: the ids of the
    store before are the tail of the ids of the store after, new jobs
    coming in front. *)
Theorem store_order_is_stable (evs : list Event) (s s' : State) :
  EvClear ∉ evs → run evs s = Some s' →
  ids (history s) `suffix_of` ids (history s').
Proof.
  revert s. induction evs as [|ev evs IH]; intros s Hevs H; cbn in H.
  - by injection H as <-.
  - destruct (handle ev s) as [s1|] eqn:Hev; [|done]. cbn in H.
    apply not_elem_of_cons in Hevs as [Hne Hevs].
    etrans; [|by eapply IH].
    destruct (history_handle _ _ _ Hev)
      as [->|[(x & f & Hf & ->)|[(fl & -> & ->)|[-> _]]]]; [done| | |done].
    + rewrite ids_mapById; [done|]. by eapply spreadOf_id.
    + rewrite ids_app. by apply suffix_app_r.
Qed.

Lemma store_order_is_stable_witness :
  ∃ s', run [EvTick 5; EvUpload [fileB]; EvStart; EvQueueEffect] ratedOnce
        = Some s'
    ∧ ids (history ratedOnce) `suffix_of` ids (history s').
Proof.
  eexists. split; [vm_compute; reflexivity|].
  apply (store_order_is_stable
           [EvTick 5; EvUpload [fileB]; EvStart; EvQueueEffect]);
    [|vm_compute; reflexivity].
  intros H.
  repeat (apply elem_of_cons in H as [H|H]; [discriminate H|]).
  by apply elem_of_nil in H.
Defined.

(** ** The configuration of a submitted job *)

Lemma frozen_handle x ev s s' j :
  keepsJob x ev → handle ev s = Some s' →
  j ∈ history s → HistoryItem.id j = x →
  ∃ j', j' ∈ history s' ∧ HistoryItem.id j' = x
    ∧ snapshotOf j' = snapshotOf j
    ∧ HistoryItem.originalImage j' = HistoryItem.originalImage j
    ∧ HistoryItem.originalFilename j' = HistoryItem.originalFilename j
    ∧ HistoryItem.mimeType j' = HistoryItem.mimeType j
    ∧ HistoryItem.timestamp j' = HistoryItem.timestamp j.
Proof.
  intros [Hreg Hclear] Hev Hj Hid.
  destruct (history_handle _ _ _ Hev)
    as [->|[(y & f & Hf & ->)|[(fl & -> & ->)|[-> _]]]]; [by exists j| | |done].
  - destruct (decide (HistoryItem.id j = y)) as [Hy|Hy].
    + exists (f j). split.
      { apply elem_of_mapById. exists j. by rewrite decide_True. }
      rewrite (spreadOf_id _ _ _ _ Hf). split; [done|].
      eapply spreadOf_frozen; [done|]. congruence.
    + exists j. split; [|done].
      apply elem_of_mapById. exists j. by rewrite decide_False.
  - exists j. split; [|done]. apply elem_of_app. by right.
Qed.

(** X2.  What a job was submitted with is frozen: as long as the job is
    not resubmitted and the store not cleared, no event (a change of the
    settings, an upload, a rating, a dispatch, an outcome of the external
    call) changes its configuration, its source picture, its file name,
    its media type or its time stamp. *)
Theorem job_configuration_is_frozen
    (x : string) (evs : list Event) (s s' : State) (j : HistoryItem.t) :
  Forall (keepsJob x) evs → run evs s = Some s' →
  j ∈ history s → HistoryItem.id j = x →
  ∃ j', j' ∈ history s' ∧ HistoryItem.id j' = x
    ∧ snapshotOf j' = snapshotOf j
    ∧ HistoryItem.originalImage j' = HistoryItem.originalImage j
    ∧ HistoryItem.originalFilename j' = HistoryItem.originalFilename j
    ∧ HistoryItem.mimeType j' = HistoryItem.mimeType j
    ∧ HistoryItem.timestamp j' = HistoryItem.timestamp j.
Proof.
  revert s j. induction evs as [|ev evs IH]; intros s j Hevs H Hj Hid; cbn in H.
  - injection H as <-. by exists j.
  - destruct (handle ev s) as [s1|] eqn:Hev; [|done]. cbn in H.
    apply Forall_cons in Hevs as [Hk Hevs].
    destruct (frozen_handle _ _ _ _ _ Hk Hev Hj Hid)
      as (j1 & Hj1 & Hid1 & Hsnap & Himg & Hname & Hmime & Hts).
    destruct (IH s1 j1 Hevs H Hj1 Hid1) as (j' & Hj' & Hid' & ? & ? & ? & ? & ?).
    exists j'. repeat split; [done|done|congruence..].
Qed.

Lemma job_configuration_is_frozen_witness :
  ∃ s' j',
    run [EvStart; EvQueueEffect; EvTick 1000; EvThrottleDone 0;
         EvCallSettled 0 (inr networkError); EvSettings patinaOffAtFifty]
        ratedOnce = Some s'
    ∧ j' ∈ history s'
    ∧ HistoryItem.id j' = "1700000000000k3j9x0q1z"
    ∧ snapshotOf j' = snapshotOf ratedOnceItem.
Proof.
  assert (∃ s', run [EvStart; EvQueueEffect; EvTick 1000; EvThrottleDone 0;
               EvCallSettled 0 (inr networkError); EvSettings patinaOffAtFifty]
              ratedOnce = Some s') as [s' Hrun]
    by (eexists; vm_compute; reflexivity).
  exists s'.
  destruct (job_configuration_is_frozen "1700000000000k3j9x0q1z"
              [EvStart; EvQueueEffect; EvTick 1000; EvThrottleDone 0;
               EvCallSettled 0 (inr networkError); EvSettings patinaOffAtFifty]
              ratedOnce s' ratedOnceItem)
    as (j' & Hj' & Hid & Hsnap & _).
  - repeat constructor; discriminate.
  - exact Hrun.
  - vm_compute. left.
  - vm_compute. reflexivity.
  - exists j'. done.
Defined.

(** ** Jobs in a final state *)

Lemma settledJobsPurged_handle ev s s' :
  handle ev s = Some s' →
  settledJobsPurged (history s) → settledJobsPurged (history s').
Proof.
  intros Hev HP.
  destruct (history_handle _ _ _ Hev)
    as [->|[(y & f & Hf & ->)|[(fl & -> & ->)|[-> ->]]]]; [done| | |].
  - intros j' (j & Hj & ->)%elem_of_mapById. specialize (HP j Hj).
    case_decide; [|done]. clear Hev. destruct ev; cbn in Hf; try done.
    + destruct Hf as [_ ->]. cbn. split; [by intros [?|?]|done].
    + by destruct Hf as [_ ->].
    + destruct Hf as (item & _ & _ & ->). destruct (hasImageData item); cbn.
      * split; [by intros [?|?]|done].
      * split; done.
    + destruct Hf as (item & req & _ & _ & ->).
      destruct outcome as [result|err]; cbn; [|done].
      split; [done|]. intros _. by eexists _, _.
  - intros j [Hj|Hj]%elem_of_app; [|by apply HP].
    apply list_elem_of_omap in Hj as (file & _ & Hfile).
    apply newItem_Some in Hfile as (-> & _). split; [by intros [?|?]|done].
  - by intros j ?%elem_of_nil.
Qed.

(** X3.  In every state the component can reach, a job that is completed
    or failed holds no source bytes any more (the [base64Data] field is
    [undefined]), and the picture of a completed job is a data URI made
    of the media type and the bytes of the result. *)
Theorem settled_jobs_hold_no_source_bytes (s : State) (j : HistoryItem.t) :
  reachable s → j ∈ history s →
  (HistoryItem.status j = completed ∨ HistoryItem.status j = failed →
   HistoryItem.base64Data j = None)
  ∧ (HistoryItem.status j = completed →
     ∃ mime data,
       HistoryItem.generatedImage j = "data:" +:+ mime +:+ ";base64," +:+ data).
Proof.
  intros (stored & clock & evs & Hrun). revert j.
  change (settledJobsPurged (history s)).
  assert (settledJobsPurged (history (init stored clock))) as Hinit.
  { by intros j ?%elem_of_nil. }
  revert Hrun Hinit. generalize (init stored clock). clear stored clock.
  induction evs as [|ev evs IH]; intros s0 Hrun H0; cbn in Hrun.
  - by injection Hrun as <-.
  - destruct (handle ev s0) as [s1|] eqn:Hev; [|done]. cbn in Hrun.
    eapply IH; [done|]. by eapply settledJobsPurged_handle.
Qed.

Lemma settled_jobs_hold_no_source_bytes_witness :
  HistoryItem.status failedJobItem = failed
  ∧ HistoryItem.base64Data failedJobItem = None.
Proof.
  split; [vm_compute; reflexivity|].
  apply (settled_jobs_hold_no_source_bytes failedJob failedJobItem).
  - exists None, 1700000000000, failedJobEvents. vm_compute. reflexivity.
  - vm_compute. left.
  - right. vm_compute. reflexivity.
Defined.

(** ** An id that is not in the store *)

(** X4.  Rating or resubmitting under an id that no job of the store has
    changes nothing: the store, the rating log and every other cell stay
    as they are. *)
Theorem unknown_id_changes_nothing (target : string) (s : State) :
  target ∉ ids (history s) →
  (∀ r, handleRate target r s = s) ∧ handleRegenerate target s = s.
Proof.
  intros Hx.
  assert (∀ f, setHistory (mapById target f) s = s) as Hsame.
  { intros f. unfold setHistory. rewrite mapById_absent by done.
    by destruct s. }
  split; [|apply Hsame].
  intros r. unfold handleRate.
  destruct (list_find _ _) as [[n item]|] eqn:Hfind; [|apply Hsame].
  apply list_find_Some in Hfind as (Hn & <- & _). destruct Hx.
  apply elem_of_ids. by eapply list_elem_of_lookup_2.
Qed.

Lemma unknown_id_changes_nothing_witness :
  handleRate "1700000000000aaaaaaaaa" 5 ratedOnce = ratedOnce
  ∧ handleRegenerate "1700000000000aaaaaaaaa" ratedOnce = ratedOnce.
Proof.
  destruct (unknown_id_changes_nothing "1700000000000aaaaaaaaa" ratedOnce)
    as [Hrate Hregen].
  - vm_compute. intros H.
    repeat (apply elem_of_cons in H as [H|H]; [discriminate H|]).
    by apply elem_of_nil in H.
  - split; [apply Hrate|apply Hregen].
Defined.

(** ** Who writes the rating log *)

Lemma storedRatings_handle ev s s' :
  isRating ev = false → handle ev s = Some s' →
  storedRatings s' = storedRatings s.
Proof.
  intros Hev H. destruct ev; cbn in H; try done;
    try (injection H as <-; done).
  - destruct (0 <=? d); [|done]. by injection H as <-.
  - case_decide; [|done]. injection H as <-. unfold processUploadedFiles.
    case_bool_decide; [done|]. cbn [history setError].
    by destruct (MAX_QUEUE_SIZE <? _).
  - injection H as <-. unfold queueEffect.
    destruct (isQueueRunning s); [|done]. cbn.
    destruct (truthy_id (processingId s)); [done|].
    destruct (nextItem (history s)) as [item|]; [|done].
    unfold processQueueItem. destruct (hasImageData item); [done|].
    unfold catchBlock. by destruct missingImageData_generic as [-> ->].
  - unfold throttleDone in H.
    destruct (tasks s !! k) as [[item [wake|req|wake]]|]; try done.
    destruct (wake <=? now s); [|done]. by injection H as <-.
  - unfold callSettled in H.
    destruct (tasks s !! k) as [[item [wake|req|wake]]|]; try done.
    destruct outcome as [result|err]; [by injection H as <-|].
    unfold catchBlock in H. destruct (isAuthError err); [by injection H as <-|].
    by destruct (isRateLimit err); injection H as <-.
  - unfold cooldownDone in H.
    destruct (tasks s !! k) as [[item [wake|req|wake]]|]; try done.
    destruct (wake <=? now s); [|done]. by injection H as <-.
Qed.

(** X5.  Only a rating writes the rating log: over any sequence of other
    events (clearing the store included) the log in [localStorage] stays
    what it was, and with it the preference profile that is put into the
    next prompt. *)
Theorem only_a_rating_writes_the_log (evs : list Event) (s s' : State) :
  forallb (λ ev, negb (isRating ev)) evs = true →
  run evs s = Some s' →
  storedRatings s' = storedRatings s
  ∧ getAiMemoryContext (storedRatings s') = getAiMemoryContext (storedRatings s).
Proof.
  intros Hevs H. enough (storedRatings s' = storedRatings s) as ->; [done|].
  revert s Hevs H. induction evs as [|ev evs IH]; intros s Hevs H; cbn in *.
  - by injection H as <-.
  - destruct (handle ev s) as [s1|] eqn:Hev; [|done]. cbn in H.
    apply andb_prop in Hevs as [Hne Hevs].
    rewrite (IH s1) by done. eapply storedRatings_handle; [|done].
    by destruct (isRating ev).
Qed.

Lemma only_a_rating_writes_the_log_witness :
  ∃ s', run [EvClear; EvUpload [fileB]] ratedOnce = Some s'
    ∧ storedRatings s' = storedRatings ratedOnce.
Proof.
  eexists. split; [vm_compute; reflexivity|].
  apply (only_a_rating_writes_the_log [EvClear; EvUpload [fileB]]);
    vm_compute; reflexivity.
Defined.

(** ** The lock while an activation waits *)

Lemma Inv_lock_held s t :
  Inv s → tasks s = [t] →
  processingId s = Some (HistoryItem.id (task_item t))
  ∧ truthy_id (processingId s) = true.
Proof.
  intros (_ & _ & Hl) Htasks. unfold lockConsistent in Hl.
  rewrite Htasks in Hl. destruct Hl as (-> & Ht & _). split; [done|].
  cbn. by apply truthy_str_true.
Qed.

(** Only its own wake-up moves an activation. *)
Lemma task_step ev s s' t :
  Inv s → tasks s = [t] → handle ev s = Some s' → ¬ wakes t s ev →
  tasks s' = [t].
Proof.
  intros HI Htasks H Hw.
  destruct (Inv_lock_held _ _ HI Htasks) as [_ Hlock].
  destruct ev; cbn in H; try (injection H as <-; done).
  - destruct (0 <=? d); [|done]. by injection H as <-.
  - case_decide; [|done]. injection H as <-. unfold processUploadedFiles.
    case_bool_decide; [done|]. cbn [history setError].
    by destruct (MAX_QUEUE_SIZE <? _).
  - injection H as <-. unfold handleRate.
    by destruct (list_find _ _) as [[? ?]|].
  - injection H as <-. unfold queueEffect.
    destruct (isQueueRunning s); [|done]. cbn. by rewrite Hlock.
  - unfold throttleDone in H. rewrite Htasks in H.
    destruct k as [|[|k]]; try done. cbn in H.
    destruct t as [item [wake|req|wake]]; try done.
    destruct (wake <=? now s) eqn:Hwake; [|done].
    apply Z.leb_le in Hwake. by destruct Hw.
  - unfold callSettled in H. rewrite Htasks in H.
    destruct k as [|[|k]]; try done. cbn in H.
    destruct t as [item [wake|req|wake]]; try done; by destruct Hw.
  - unfold cooldownDone in H. rewrite Htasks in H.
    destruct k as [|[|k]]; try done. cbn in H.
    destruct t as [item [wake|req|wake]]; try done.
    destruct (wake <=? now s) eqn:Hwake; [|done].
    apply Z.leb_le in Hwake. by destruct Hw.
Qed.

Lemma throttle_run evs s s' item w :
  Inv s →
  tasks s = [{| task_item := item; task_phase := Throttle w |}] →
  run evs s = Some s' →
  now s' < w →
  Inv s' ∧ tasks s' = [{| task_item := item; task_phase := Throttle w |}].
Proof.
  revert s. induction evs as [|ev evs IH]; intros s HI Htasks H Hnow; cbn in H.
  - by injection H as <-.
  - destruct (handle ev s) as [s1|] eqn:Hev; [|done]. cbn in H.
    pose proof (run_now_mono _ _ _ H) as Hmono1.
    pose proof (handle_now_mono _ _ _ Hev) as Hmono.
    apply (IH s1); [by eapply Inv_handle| |done|done].
    eapply task_step; [done..|]. unfold wakes. cbn.
    destruct ev; try (by intros []). lia.
Qed.

Lemma calling_run evs s s' item req :
  Inv s →
  tasks s = [{| task_item := item; task_phase := Calling req |}] →
  run evs s = Some s' →
  forallb (λ ev, negb (isCallSettled ev)) evs = true →
  Inv s' ∧ tasks s' = [{| task_item := item; task_phase := Calling req |}].
Proof.
  revert s. induction evs as [|ev evs IH]; intros s HI Htasks H Hevs; cbn in *.
  - by injection H as <-.
  - destruct (handle ev s) as [s1|] eqn:Hev; [|done]. cbn in H.
    apply andb_prop in Hevs as [Hne Hevs].
    apply (IH s1); [by eapply Inv_handle| |done|done].
    eapply task_step; [done..|]. unfold wakes. cbn.
    by destruct ev; try (by intros []).
Qed.

(** X6.  The throttle.  When the queue effect dispatches a job that has
    its image data, the activation first waits: for as long as the clock
    has not passed 1000 ms since the dispatch, whatever else happens, the
    activation is still in its delay, so the external call has not been
    made, and the lock is held.  Once 1000 ms or more have passed the
    delay ends and the call is made with the job as it was dispatched and
    with the preference profile as the rating log then gives it. *)
Theorem no_call_within_a_second_of_dispatch (s : State) (item : HistoryItem.t) :
  reachable s →
  isQueueRunning s = true →
  truthy_id (processingId s) = false →
  nextItem (history s) = Some item →
  hasImageData item = true →
  let s1 := queueEffect s in
  let waiting := {| task_item := item; task_phase := Throttle (now s + 1000) |} in
  tasks s1 = [waiting]
  ∧ (∀ evs s2, run evs s1 = Some s2 → now s2 < now s + 1000 →
       tasks s2 = [waiting] ∧ truthy_id (processingId s2) = true)
  ∧ (∀ d, 1000 ≤ d →
       ∃ s3, run [EvTick d; EvThrottleDone 0] s1 = Some s3
         ∧ tasks s3
           = [{| task_item := item;
                 task_phase :=
                   Calling (requestOf item
                              (getAiMemoryContext (storedRatings s))) |}]).
Proof.
  intros Hreach Hrun Hfree Hnext Himg s1 waiting.
  pose proof (Inv_reachable _ Hreach) as HI.
  destruct (Inv_lock_free _ HI Hfree) as [Htasks _].
  assert (s1 = setTasks (λ ts, ts ++ [waiting])
                 (setHistory (mapById (HistoryItem.id item) with_generating)
                    (setProcessingId (Some (HistoryItem.id item)) s))) as Hs1.
  { unfold s1, queueEffect. rewrite Hrun, Hfree, Hnext. cbn.
    unfold processQueueItem. by rewrite Himg. }
  assert (tasks s1 = [waiting]) as Htasks1.
  { rewrite Hs1. cbn. by rewrite Htasks. }
  assert (Inv s1) as HI1 by by apply Inv_queueEffect.
  split; [done|]. split.
  - intros evs s2 H2 Hnow.
    assert (now s1 = now s) as Hnow1 by by rewrite Hs1.
    destruct (throttle_run evs s1 s2 item (now s + 1000) HI1 Htasks1 H2 Hnow)
      as [HI2 Htasks2].
    split; [done|]. by eapply Inv_lock_held.
  - intros d Hd. cbn. rewrite (proj2 (Z.leb_le 0 d)) by lia. cbn.
    unfold throttleDone. cbn. rewrite Htasks1. cbn.
    assert (now s1 = now s) as -> by by rewrite Hs1.
    rewrite (proj2 (Z.leb_le _ _)) by lia. eexists. split; [done|].
    cbn. rewrite Htasks1. cbn. by rewrite Hs1.
Qed.

Lemma no_call_within_a_second_of_dispatch_witness :
  ∃ s2, run [EvTick 999; EvPause; EvQueueEffect] (queueEffect twoSubmissions)
        = Some s2
    ∧ now s2 = 1700000001004
    ∧ truthy_id (processingId s2) = true.
Proof.
  eexists. split; [vm_compute; reflexivity|]. split; [vm_compute; reflexivity|].
  destruct (no_call_within_a_second_of_dispatch twoSubmissions
              (default failedJobItem (history twoSubmissions !! 0%nat)))
    as (_ & Hwait & _).
  - exists None, 1700000000000,
      [EvCheckKey true; EvUpload [fileA]; EvTick 5; EvUpload [fileB]; EvStart].
    vm_compute. reflexivity.
  - vm_compute. reflexivity.
  - vm_compute. reflexivity.
  - vm_compute. reflexivity.
  - vm_compute. reflexivity.
  - apply (Hwait [EvTick 999; EvPause; EvQueueEffect]);
      vm_compute; reflexivity.
Defined.

(** X7.  One external call at a time.  While the call of an activation is
    pending, nothing the user does (pausing, starting, clearing the store,
    uploading, resubmitting, rating, changing the settings) and no tick of
    the clock ends it or starts another one: until the call settles the
    activation is the only one, the lock names its job, and the queue
    effect dispatches nothing. *)
Theorem one_call_at_a_time
    (s s' : State) (k : nat) (item : HistoryItem.t)
    (req : geminiService.Request) (evs : list Event) :
  reachable s →
  tasks s !! k = Some {| task_item := item; task_phase := Calling req |} →
  forallb (λ ev, negb (isCallSettled ev)) evs = true →
  run evs s = Some s' →
  tasks s' = [{| task_item := item; task_phase := Calling req |}]
  ∧ processingId s' = Some (HistoryItem.id item)
  ∧ queueEffect s' = s'.
Proof.
  intros Hreach Hk Hevs Hrun. pose proof (Inv_reachable _ Hreach) as HI.
  destruct (Inv_single_task _ _ _ HI Hk) as [Htasks ->].
  destruct (calling_run _ _ _ _ _ HI Htasks Hrun Hevs) as [HI' Htasks'].
  destruct (Inv_lock_held _ _ HI' Htasks') as [Hp Hlock].
  split; [done|]. split; [done|]. by apply queueEffect_locked.
Qed.

Lemma one_call_at_a_time_witness :
  ∃ s', run [EvClear; EvUpload [fileA]; EvStart; EvQueueEffect] callPending
        = Some s'
    ∧ processingId s' = Some "1700000000000k3j9x0q1z"
    ∧ HistoryItem.status <$> history s' = [queued].
Proof.
  eexists. split; [vm_compute; reflexivity|]. split; [|vm_compute; reflexivity].
  apply (one_call_at_a_time callPending _ 0 callPendingItem callPendingRequest
           [EvClear; EvUpload [fileA]; EvStart; EvQueueEffect]).
  - exists None, 1700000000000, callPendingEvents. vm_compute. reflexivity.
  - vm_compute. reflexivity.
  - vm_compute. reflexivity.
  - vm_compute. reflexivity.
Defined.

(** ** The outcomes of the external call *)





(** ** The dispatch of a job without image data, and the drained queue *)

(** X10.  A queued job without image data (the bytes or the media type
    missing or empty, as for an image file of no bytes) is dispatched and
    fails in the same step: it is marked [failed], no activation is left
    waiting, the lock is free again, nothing is sent, and the queue keeps
    running. *)
Theorem dispatch_without_image_data_fails_at_once
    (s : State) (item : HistoryItem.t) :
  reachable s →
  isQueueRunning s = true →
  truthy_id (processingId s) = false →
  nextItem (history s) = Some item →
  hasImageData item = false →
  let s1 := queueEffect s in
  history s1
  = mapById (HistoryItem.id item) (with_failed ∘ with_generating) (history s)
  ∧ (∀ j, j ∈ history s1 → HistoryItem.id j = HistoryItem.id item →
       HistoryItem.status j = failed)
  ∧ processingId s1 = None ∧ tasks s1 = []
  ∧ isQueueRunning s1 = true
  ∧ hasKey s1 = hasKey s ∧ error s1 = error s.
Proof.
  intros Hreach Hrun Hfree Hnext Himg s1.
  pose proof (Inv_reachable _ Hreach) as HI.
  destruct (Inv_lock_free _ HI Hfree) as [Htasks _].
  assert (s1 = finallyBlock
                 (setHistory (mapById (HistoryItem.id item) with_failed)
                    (setHistory (mapById (HistoryItem.id item) with_generating)
                       (setProcessingId (Some (HistoryItem.id item)) s))))
    as Hs1.
  { unfold s1, queueEffect. rewrite Hrun, Hfree, Hnext. cbn.
    unfold processQueueItem. rewrite Himg. unfold catchBlock.
    by destruct missingImageData_generic as [-> ->]. }
  assert (history s1 = mapById (HistoryItem.id item)
                         (with_failed ∘ with_generating) (history s)) as Hh.
  { rewrite Hs1. cbn. by rewrite mapById_mapById. }
  split; [done|]. split.
  { rewrite Hh. intros j' (j & Hj & ->)%elem_of_mapById Hid.
    case_decide as Hj'; [done|]. by destruct Hj'. }
  rewrite Hs1. cbn. done.
Qed.

Lemma dispatch_without_image_data_fails_at_once_witness :
  HistoryItem.status <$> history (queueEffect emptyQueued) = [failed]
  ∧ processingId (queueEffect emptyQueued) = None.
Proof.
  destruct (dispatch_without_image_data_fails_at_once emptyQueued
              (default failedJobItem (history emptyQueued !! 0%nat)))
    as (Hh & _ & Hp & _).
  - exists None, 1700000000000,
      [EvCheckKey true; EvUpload [emptyFile]; EvStart].
    vm_compute. reflexivity.
  - vm_compute. reflexivity.
  - vm_compute. reflexivity.
  - vm_compute. reflexivity.
  - vm_compute. reflexivity.
  - split; [|exact Hp]. rewrite Hh. vm_compute. reflexivity.
Defined.

Lemma nextItem_None h :
  (∀ j, j ∈ h → HistoryItem.status j ≠ queued) → nextItem h = None.
Proof.
  intros Hnone. unfold nextItem.
  destruct (list_find _ h) as [[n x]|] eqn:Hfind; [|done].
  apply list_find_Some in Hfind as (Hn & Hq & _).
  destruct (Hnone x); [by eapply list_elem_of_lookup_2|done].
Qed.

(** X11.  The drained queue.  When the queue runs, the lock is free and no
    job is queued, the queue effect switches the run flag off and does
    nothing else.  From then on jobs that are uploaded or resubmitted stay
    queued: the queue effect dispatches nothing until the Start control
    is used again. *)
Theorem drained_queue_stops_itself (s : State) :
  isQueueRunning s = true →
  truthy_id (processingId s) = false →
  (∀ j, j ∈ history s → HistoryItem.status j ≠ queued) →
  queueEffect s = setIsQueueRunning false s
  ∧ (∀ evs s2, run evs (queueEffect s) = Some s2 →
       forallb (λ ev, negb (isStart ev)) evs = true →
       isQueueRunning s2 = false ∧ queueEffect s2 = s2).
Proof.
  intros Hrun Hfree Hnone.
  assert (queueEffect s = setIsQueueRunning false s) as Hq.
  { unfold queueEffect. by rewrite Hrun, Hfree, nextItem_None. }
  split; [done|]. intros evs s2 H2 Hevs.
  assert (isQueueRunning s2 = false) as Hp.
  { eapply (paused_run evs); [|exact H2|by rewrite Hq].
    intros Hin%list_elem_of_In.
    by apply (proj1 (forallb_forall _ _) Hevs) in Hin. }
  split; [done|]. by apply queueEffect_paused.
Qed.

Lemma drained_queue_stops_itself_witness :
  ∃ s2, run [EvUpload [fileB]; EvQueueEffect] (queueEffect failedJob) = Some s2
    ∧ isQueueRunning s2 = false
    ∧ HistoryItem.status <$> history s2 = [queued; failed].
Proof.
  eexists. split; [vm_compute; reflexivity|]. split; [|vm_compute; reflexivity].
  destruct (drained_queue_stops_itself failedJob) as [_ Hstay].
  - vm_compute. reflexivity.
  - vm_compute. reflexivity.
  - vm_compute. intros j Hj.
    apply elem_of_cons in Hj as [->|Hj]; [done|]. by apply elem_of_nil in Hj.
  - apply (Hstay [EvUpload [fileB]; EvQueueEffect]); vm_compute; reflexivity.
Defined.

(** ** The ceiling outside of the upload *)

Lemma activeCount_app h1 h2 :
  activeCount (h1 ++ h2) = activeCount h1 + activeCount h2.
Proof.
  unfold activeCount. rewrite List.filter_app, length_app. lia.
Qed.


Lemma activeCount_nonneg h : 0 ≤ activeCount h.
Proof. unfold activeCount. lia. Qed.








(** X13.  A resubmission is not counted against the ceiling.  Resubmitting
    a failed or completed job makes it active again, so the number of
    active jobs grows by one, and this is done whatever that number is:
    [handleRegenerate] makes no capacity check and reports no error. *)
Theorem resubmission_is_not_counted (s : State) (j : HistoryItem.t) :
  reachable s → j ∈ history s →
  HistoryItem.status j = failed ∨ HistoryItem.status j = completed →
  activeCount (history (handleRegenerate (HistoryItem.id j) s))
  = activeCount (history s) + 1
  ∧ error (handleRegenerate (HistoryItem.id j) s) = error s.
Proof.
  intros (Hnd & _)%Inv_reachable Hj Hst. split; [|done].
  apply list_elem_of_split in Hj as (pre & post & Hh).
  unfold handleRegenerate. cbn. rewrite Hh in *.
  rewrite ids_app in Hnd. cbn in Hnd.
  apply NoDup_app in Hnd as (_ & Hpre & Hpost).
  apply NoDup_cons in Hpost as [Hpost _].
  assert (HistoryItem.id j ∉ ids pre) as Hpre'.
  { intros Hin. apply (Hpre _ Hin). left. }
  unfold mapById at 1. rewrite fmap_app, fmap_cons.
  fold (mapById (HistoryItem.id j) (regenerated (settings s) (now s)) pre).
  fold (mapById (HistoryItem.id j) (regenerated (settings s) (now s)) post).
  rewrite !mapById_absent by done. rewrite decide_True by done.
  rewrite !activeCount_app.
  change (?a :: post) with ([a] ++ post). rewrite !activeCount_app.
  assert (activeCount [j] = 0) as ->.
  { unfold activeCount, isActive. cbn. by destruct Hst as [-> | ->]. }
  assert (activeCount [regenerated (settings s) (now s) j] = 1) as -> by done.
  lia.
Qed.

Lemma resubmission_is_not_counted_witness :
  activeCount (history fullAfterFailure) = 30
  ∧ activeCount (history (handleRegenerate "1700000000000k3j9x0q1z"
                            fullAfterFailure)) = 31.
Proof.
  split; [vm_compute; reflexivity|].
  destruct (resubmission_is_not_counted fullAfterFailure failedJobItem)
    as [Hcount _].
  - exists None, 1700000000000, fullAfterFailureEvents. vm_compute. reflexivity.
  - vm_compute. do 30 right. left.
  - left. vm_compute. reflexivity.
  - exact Hcount.
Defined.

(** ** The indicator of a full queue and the file picker *)





(** ** The response of the service *)

Lemma firstImage_Some parts result :
  firstImage parts = Some result →
  ∃ pre part d post, parts = pre ++ part :: post
    ∧ part_inlineData part = Some d
    ∧ inline_data d = Some (imageData result)
    ∧ imageData result ≠ EmptyString
    ∧ res_mimeType result = or_str (inline_mimeType d) "image/png"
    ∧ firstImage pre = None.
Proof.
  induction parts as [|part rest IH]; [done|]. cbn.
  destruct (part_inlineData part) as [d|] eqn:Hd.
  - destruct (inline_data d) as [x|] eqn:Hx.
    + destruct (truthy_str x) eqn:Htruthy.
      * intros [= <-]. exists [], part, d, rest. cbn.
        apply truthy_str_true in Htruthy. done.
      * intros (pre & p & d' & post & -> & ? & ? & ? & ? & Hpre)%IH.
        exists (part :: pre), p, d', post. cbn. rewrite Hd, Hx, Htruthy. done.
    + intros (pre & p & d' & post & -> & ? & ? & ? & ? & Hpre)%IH.
      exists (part :: pre), p, d', post. cbn. rewrite Hd, Hx. done.
  - intros (pre & p & d' & post & -> & ? & ? & ? & ? & Hpre)%IH.
    exists (part :: pre), p, d', post. cbn. rewrite Hd. done.
Qed.

Lemma or_str_nonempty o d : d ≠ EmptyString → or_str o d ≠ EmptyString.
Proof.
  intros Hd. destruct o as [x|]; cbn; [|done].
  destruct (truthy_str x) eqn:Hx; [|done]. by apply truthy_str_true.
Qed.

(** X15.  What [generateProPhoto] returns.  When the function returns a
    picture, the API key was set, and the picture is the first part of
    the first candidate that carries inline data with bytes: its bytes
    are those of the result and are not empty, its media type is the one
    of the part, or [image/png] when the part has none, and is never
    empty; the parts before it (text parts, parts without bytes) are
    skipped. *)
Theorem generateProPhoto_returns_first_image
    (apiKey : option string) (response : ApiResponse)
    (result : GeneratedImageResult) :
  generateProPhoto_outcome apiKey response = inl result →
  truthy_id apiKey = true
  ∧ ∃ pre part d post,
      response = Responded (Some (pre ++ part :: post))
      ∧ part_inlineData part = Some d
      ∧ inline_data d = Some (imageData result)
      ∧ imageData result ≠ EmptyString
      ∧ res_mimeType result = or_str (inline_mimeType d) "image/png"
      ∧ res_mimeType result ≠ EmptyString
      ∧ firstImage pre = None.
Proof.
  unfold generateProPhoto_outcome.
  destruct (truthy_id apiKey); [|done]. split; [done|].
  destruct response as [err|[parts|]]; try done.
  destruct (firstImage parts) as [r|] eqn:Hfirst; [|done].
  injection H as <-.
  apply firstImage_Some in Hfirst
    as (pre & part & d & post & -> & Hd & Hx & Hne & Hmime & Hpre).
  exists pre, part, d, post. repeat split; try done.
  rewrite Hmime. by apply or_str_nonempty.
Qed.

Lemma generateProPhoto_returns_first_image_witness :
  ∃ pre part d post,
    Responded
      (Some [ {| part_inlineData := None |};
              {| part_inlineData :=
                   Some {| inline_data := Some "UE5H";
                           inline_mimeType := None |} |} ])
    = Responded (Some (pre ++ part :: post))
    ∧ part_inlineData part = Some d
    ∧ inline_data d = Some "UE5H".
Proof.
  destruct (generateProPhoto_returns_first_image (Some "key")
              (Responded
                 (Some [ {| part_inlineData := None |};
                         {| part_inlineData :=
                              Some {| inline_data := Some "UE5H";
                                      inline_mimeType := None |} |} ]))
              {| imageData := "UE5H"; res_mimeType := "image/png" |})
    as (_ & pre & part & d & post & Hparts & Hd & Hx & _).
  - vm_compute. reflexivity.
  - by exists pre, part, d, post.
Defined.

(** X16.  The errors [generateProPhoto] raises itself (no API key, no
    content in the response, no picture among the parts) match neither
    the credential pattern nor the throttling patterns of the [catch]
    block of [processQueueItem], and carry no status.  So a missing API
    key fails the job without opening the key dialog, pausing the queue
    or starting a cooldown. *)
Theorem own_errors_are_unclassified
    (apiKey : option string) (response : ApiResponse) (err : JsError) :
  generateProPhoto_outcome apiKey response = inr err →
  (truthy_id apiKey = false ∨ ∃ parts, response = Responded parts) →
  classify err = Unclassified ∧ err_status err = None.
Proof.
  unfold generateProPhoto_outcome. intros H Hown.
  destruct (truthy_id apiKey).
  - destruct Hown as [?|[parts ->]]; [done|].
    destruct parts as [parts|]; [|by injection H as <-].
    destruct (firstImage parts); [done|]. by injection H as <-.
  - by injection H as <-.
Qed.

Lemma own_errors_are_unclassified_witness :
  classify (newError "API Key not found. Please connect your Google Cloud Project.")
  = Unclassified.
Proof.
  apply (own_errors_are_unclassified None (Responded None)).
  - vm_compute. reflexivity.
  - left. vm_compute. reflexivity.
Defined.

(** ** The light source and the angle buckets *)

(** X17.  For a shadow angle of the slider, 0 to 360 degrees, the prompt
    opens with the light source angle and then the shadow angle, and the
    light source angle is a direction from 0 to 359 degrees opposite to
    the shadow: the shadow angle plus 180 below 180 degrees, minus 180
    from there on. *)
Theorem light_source_is_opposite_the_shadow
    (a : Z) (intensity : option ShadowIntensity) (distance : option Z)
    (enhanced : option bool) :
  0 ≤ a ≤ 360 →
  0 ≤ lightSourceAngle a < 360
  ∧ lightSourceAngle a = (if a <? 180 then a + 180 else a - 180)
  ∧ ∃ rest,
      geminiService.getShadowInstructions (Some a) intensity distance enhanced
      = "
   [LIGHTING & SHADOW SIMULATION]
   - MAIN LIGHT SOURCE ANGLE: " +:+ pretty (lightSourceAngle a) +:+ "°
   - CAST SHADOW ANGLE: " +:+ pretty a +:+ "°
   - SHADOW PROFILE: " +:+ rest.
Proof.
  intros Ha. unfold lightSourceAngle.
  assert (Z.rem (a + 180) 360 = if a <? 180 then a + 180 else a - 180) as Hrem.
  { rewrite Z.rem_mod_nonneg by lia.
    destruct (a <? 180) eqn:Hlt.
    - apply Z.ltb_lt in Hlt. apply Z.mod_small. lia.
    - apply Z.ltb_ge in Hlt.
      replace (a + 180) with (a - 180 + 1 * 360) by lia.
      rewrite Z.mod_add by lia. apply Z.mod_small. lia. }
  split; [|split; [done|]].
  - rewrite Hrem. destruct (a <? 180) eqn:Hlt;
      [apply Z.ltb_lt in Hlt|apply Z.ltb_ge in Hlt]; lia.
  - eexists. unfold geminiService.getShadowInstructions. cbn [default].
    reflexivity.
Qed.

Lemma light_source_is_opposite_the_shadow_witness :
  lightSourceAngle 135 = 315.
Proof.
  destruct (light_source_is_opposite_the_shadow 135 None None None)
    as (_ & Hl & _); [lia|]. exact Hl.
Defined.

(** X18.  The angle bucket of the preference profile is the multiple of 45
    degrees nearest to the angle: it is a multiple of 45 and lies within
    22 degrees of the angle. *)
Theorem angle_bucket_is_the_nearest_multiple_of_45 (a : Z) :
  ∃ k, angleBucket a = 45 * k ∧ -22 ≤ angleBucket a - a ≤ 22.
Proof.
  unfold angleBucket. exists ((2 * a + 45) `div` 90). split; [lia|].
  pose proof (Z.div_mod (2 * a + 45) 90 ltac:(lia)).
  pose proof (Z.mod_pos_bound (2 * a + 45) 90 ltac:(lia)).
  lia.
Qed.

(** ** The material presets *)

(** X19.  A saved preset loads back.  Saving the material settings under
    a name that is not blank appends one preset, with that name, to the
    list and stores the list; loading that preset afterwards, whatever
    the material settings have become in between, gives settings under
    which an uploaded image is sent with the same request (prompt, image
    and aspect ratio) as under the settings that were saved, provided the
    shadow, distance, aspect ratio and lighting settings are the same. *)
Theorem saved_preset_loads_back
    (trimmed : string) (clock : Z) (st : PresetState) (g' : Settings)
    (uploadClock : Z) (file : File) (memoryContext : string) :
  truthy_str trimmed = true →
  shadowAngle g' = shadowAngle (ps_settings st) →
  shadowIntensity g' = shadowIntensity (ps_settings st) →
  backgroundDistance g' = backgroundDistance (ps_settings st) →
  aspectRatio g' = aspectRatio (ps_settings st) →
  enhancedLighting g' = enhancedLighting (ps_settings st) →
  let g := ps_settings st in
  let st' := handleSavePreset trimmed clock st in
  ∃ preset,
    presets st' = presets st ++ [preset]
    ∧ storedPresets st' = Some (presets st')
    ∧ MaterialPreset.name preset = trimmed
    ∧ MaterialPreset.materialType preset = materialType g
    ∧ materialType (handleLoadPreset preset g') = materialType g
    ∧ (λ j, requestOf j memoryContext)
        <$> newItem (handleLoadPreset preset g') uploadClock file
      = (λ j, requestOf j memoryContext) <$> newItem g uploadClock file.
Proof.
  intros Hname Hangle Hint Hdist Hratio Hlight g st'.
  exists (presetOf (pretty clock) trimmed g).
  unfold st', handleSavePreset. rewrite Hname. cbn.
  do 5 (split; [done|]).
  unfold newItem. destruct (file_dataUri file) as [uri|]; [|done]. cbn.
  f_equal. unfold requestOf, stampedPatina. cbn.
  rewrite Hangle, Hint, Hdist, Hratio, Hlight. fold g.
  unfold geminiService.generateProPhoto_request. cbn [default or_else].
  f_equal. unfold geminiService.getSystemPrompt.
  do 5 f_equal.
  destruct (materialType g) eqn:Hm; cbn;
    destruct (isPatinaEnabled g) eqn:He; cbn; reflexivity.
Qed.

Lemma saved_preset_loads_back_witness :
  ∃ preset,
    presets (handleSavePreset "Aged brass" 1700000000000
               {| ps_settings := patinaOffAtFifty; presets := [];
                  newPresetName := "Aged brass "; storedPresets := None |})
    = [preset]
    ∧ materialType (handleLoadPreset preset defaultSettings) = metal.
Proof.
  destruct (saved_preset_loads_back "Aged brass" 1700000000000
              {| ps_settings := patinaOffAtFifty; presets := [];
                 newPresetName := "Aged brass "; storedPresets := None |}
              defaultSettings 1700000000000 fileA EmptyString)
    as (preset & Hp & _ & _ & _ & Hm & _); try reflexivity.
  exists preset. split; [exact Hp|exact Hm].
Defined.
